(** * rocRAND: the Poisson probability table and its cache

    A shallow embedding of [library/src/rng/distribution/poisson.hpp]:
    - [poisson_distribution::set_lambda] and [calculate_probabilities], which
      truncate the Poisson probability mass function to a window around the
      mode and compact the kept entries to the front of the array;
    - [poisson_distribution_manager], which rebuilds the table only when the
      rate changes and moves the device resources between managers;
    - programs that construct, move, set and destroy several managers on
      one device, to state what holds in every state they reach.

    The adapter [mrg_engine_poisson_distribution] only composes two
    functions defined outside this header and is not modelled.

    Doubles are the kernel's binary64 floats, so [sqrt], [+], [*], [-] and
    the comparisons are the IEEE operations the compiled code runs.  The
    <cmath> functions [std::log], [std::exp] and [std::lgamma] are not part
    of the repository: the builder is parameterised by them.

    A computation is an [option]: [None] stands for behaviour the C++
    standard leaves undefined (a floating value converted to an integer type
    that cannot hold it, a vector index out of range, signed overflow).
    Unsigned arithmetic wraps modulo 2^64 and the conversion of a [size_t]
    to [int] is modular. *)

From Stdlib Require Import ZArith Lia Floats.
From Stdlib Require Uint63.
From stdpp Require Import base option list gmap.

Local Open Scope Z_scope.

(** ** Machine integers *)

Definition INT_MIN : Z := - 2 ^ 31.
Definition INT_MAX : Z := 2 ^ 31 - 1.
Definition SIZE_MAX : Z := 2 ^ 64 - 1.

Definition in_int (z : Z) : bool := (INT_MIN <=? z) && (z <=? INT_MAX).

(** [size_t] arithmetic and conversion to [size_t]: modulo 2^64. *)
Definition to_size_t (z : Z) : Z := z mod 2 ^ 64.

(** Conversion of an integer value to [int]: the value modulo 2^32 taken in
    the signed range. *)
Definition to_int (z : Z) : Z := (z + 2 ^ 31) mod 2 ^ 32 - 2 ^ 31.

(** [int] addition and subtraction; overflow is undefined. *)
Definition int_add (a b : Z) : option Z :=
  if in_int (a + b) then Some (a + b) else None.

Definition int_sub (a b : Z) : option Z :=
  if in_int (a - b) then Some (a - b) else None.

(** ** Doubles *)

Abbreviation double := float (only parsing).

(** The value of a finite double as [m * 2^e]; [None] for NaN and the
    infinities. *)
Definition double_parts (x : double) : option (Z * Z) :=
  match Prim2SF x with
  | S754_zero _ => Some (0, 0)
  | S754_finite s m e => Some (if s then Z.neg m else Z.pos m, e)
  | S754_infinity _ | S754_nan => None
  end.

(** The integer below [x] and the integer part of [x] (a shift by a
    negative amount is a shift to the right, which rounds down). *)
Definition floor_Z (x : double) : option Z :=
  '(m, e) ← double_parts x; Some (Z.shiftl m e).

Definition trunc_Z (x : double) : option Z :=
  '(m, e) ← double_parts x; Some (Z.sgn m * Z.shiftl (Z.abs m) e).

(** [static_cast<size_t>(x)]: truncation toward zero, undefined when the
    truncated value is not a [size_t]. *)
Definition static_cast_size_t (x : double) : option Z :=
  z ← trunc_Z x;
  if (0 <=? z) && (z <=? SIZE_MAX) then Some z else None.

(** [static_cast<int>(std::floor(x))]: [std::floor] returns the integral
    double below [x] exactly and the cast of an integral double is that
    integer, undefined when it is not an [int]. *)
Definition floor_to_int (x : double) : option Z :=
  z ← floor_Z x;
  if in_int z then Some z else None.

(** The conversion of an [int] to [double] is exact. *)
Definition int_to_double (z : Z) : double :=
  match z with
  | Z0 => 0%float
  | Zpos _ => of_uint63 (Uint63.of_Z z)
  | Zneg n => (- of_uint63 (Uint63.of_Z (Zpos n)))%float
  end.

(** ** [std::vector<double>] *)

Definition vget (p : list double) (i : Z) : option double :=
  if 0 <=? i then p !! Z.to_nat i else None.

Definition vset (p : list double) (i : Z) (v : double) : option (list double) :=
  if (0 <=? i) && (i <? Z.of_nat (length p))
  then Some (<[Z.to_nat i := v]> p) else None.

(** ** The sampling structure and device memory

    [discrete_distribution_base] (discrete.hpp) gives a distribution its
    members [size] and [offset] and the pointers to the device tables built
    from the probabilities; the pointers are one handle here, [None] being
    the null pointers of a default-constructed distribution.  Copying a
    distribution copies the handle, not what it points to. *)

Abbreviation handle := nat (only parsing).

Record distribution := Distribution {
  dis_size : Z;
  dis_offset : Z;
  dis_table : option handle
}.

(** The live device allocations, each holding the probabilities its
    sampling structure was built from. *)
Abbreviation device := (gmap nat (list float)) (only parsing).

(** [poisson_distribution() : base() {}], also the value of [{}]. *)
Definition empty_distribution : distribution := Distribution 0 0 None.

(** Modelled from the spec: [deallocate()], which discrete.hpp defines.
    It releases the resources of the structure the distribution holds and
    clears the handle; on a cleared handle it does nothing. *)
Definition deallocate (d : distribution) (h : device) : distribution * device :=
  match dis_table d with
  | Some a => (Distribution (dis_size d) (dis_offset d) None, delete a h)
  | None => (d, h)
  end.

(** Modelled from the spec: [init(p, size, offset)], which discrete.hpp
    defines.  It releases the structure held before and builds, in fresh
    device memory, the sampling structure of the first [size]
    probabilities. *)
Definition init (p : list double) (size offset : Z) (d : distribution)
    (h : device) : distribution * device :=
  let '(_, h) := deallocate d h in
  let a := fresh (dom h) in
  (Distribution size offset (Some a), <[a := take (Z.to_nat size) p]> h).

(** ** The table builder: [poisson_distribution] *)

(** What [calculate_probabilities] leaves behind: the array [p] it was
    given by reference, and the members [size] and [offset] (their
    declaration is in discrete.hpp; the values are those of the [int]
    expressions assigned to them). *)
Record window := Window {
  probabilities : list double;
  size : Z;
  offset : Z
}.

Module poisson_distribution.
Section libm.
Variables log exp lgamma : double → double.

(** [p_epsilon = 1e-12], the double nearest to it. *)
Definition p_epsilon : double := 0x1.19799812dea11p-40%float.

(** The body shared by the two scans:
    [x = left + i; pp = exp(x * log_lambda - lgamma(x + 1.0) - lambda)]. *)
Definition pp (lambda log_lambda : double) (left i : Z) : option double :=
  xi ← int_add left i;
  let x := int_to_double xi in
  Some (exp (x * log_lambda - lgamma (x + 1) - lambda)%float).

(** [for (int i = capacity / 2; i >= 0; i--)], entered with [i = k - 1]:
    returns the array and [lo]. *)
Fixpoint scan_down (lambda log_lambda : double) (left : Z)
    (k : nat) (p : list double) : option (list double * Z) :=
  match k with
  | O => Some (p, 0)
  | S k' =>
      let i := Z.of_nat k' in
      v ← pp lambda log_lambda left i;
      if (v <? p_epsilon)%float
      then lo ← int_add i 1; Some (p, lo)
      else p' ← vset p i v; scan_down lambda log_lambda left k' p'
  end.

(** [for (int i = capacity / 2 + 1; i < static_cast<int>(capacity); i++)]
    with [n] iterations left: returns the array and [hi], which is [hi0]
    when the loop runs to its end. *)
Fixpoint scan_up (lambda log_lambda : double) (left : Z) (hi0 : Z)
    (n : nat) (i : Z) (p : list double) : option (list double * Z) :=
  match n with
  | O => Some (p, hi0)
  | S n' =>
      v ← pp lambda log_lambda left i;
      if (v <? p_epsilon)%float
      then hi ← int_sub i 1; Some (p, hi)
      else
        p' ← vset p i v;
        i' ← int_add i 1;
        scan_up lambda log_lambda left hi0 n' i' p'
  end.

(** [for (int i = lo; i <= hi; i++) p[i - lo] = p[i];] with [n]
    iterations left. *)
Fixpoint compact (lo : Z) (n : nat) (i : Z) (p : list double)
    : option (list double) :=
  match n with
  | O => Some p
  | S n' =>
      v ← vget p i;
      j ← int_sub i lo;
      p' ← vset p j v;
      i' ← int_add i 1;
      compact lo n' i' p'
  end.

(** [left = static_cast<int>(std::floor(lambda)) - capacity / 2]: the
    difference of an [int] and a [size_t] is taken in [size_t] and
    converted to [int]. *)
Definition left_of (fl capacity : Z) : Z :=
  to_int (to_size_t (to_size_t fl - capacity / 2)).

Definition calculate_probabilities (p : list double) (capacity : Z)
    (lambda : double) : option window :=
  let log_lambda := log lambda in
  fl ← floor_to_int lambda;
  let left := left_of fl capacity in
  let half := to_int (capacity / 2) in
  '(p1, lo) ← scan_down lambda log_lambda left (Z.to_nat (half + 1)) p;
  let hi0 := to_int (to_size_t (capacity - 1)) in
  let first := to_int (to_size_t (capacity / 2 + 1)) in
  '(p2, hi) ← scan_up lambda log_lambda left hi0
                 (Z.to_nat (to_int capacity - first)) first p1;
  p3 ← compact lo (Z.to_nat (hi - lo + 1)) lo p2;
  d ← int_sub hi lo;
  sz ← int_add d 1;
  off ← int_add left lo;
  Some (Window p3 sz off).

(** [capacity = 2 * static_cast<size_t>(16.0 * (2.0 + std::sqrt(lambda)))] *)
Definition capacity_of (lambda : double) : option Z :=
  n ← static_cast_size_t (16 * (2 + PrimFloat.sqrt lambda))%float;
  Some (to_size_t (2 * n)).

(** The first statements of [set_lambda]: the capacity, the zero-filled
    [std::vector<double> p(capacity)] and [calculate_probabilities]. *)
Definition set_lambda_window (lambda : double) : option window :=
  capacity ← capacity_of lambda;
  calculate_probabilities (replicate (Z.to_nat capacity) 0%float) capacity lambda.

(** [poisson_distribution::set_lambda]: [calculate_probabilities] has
    assigned [this->size] and [this->offset]; [this->init(p, this->size,
    this->offset)] builds the structure. *)
Definition set_lambda (lambda : double) (d : distribution) (h : device)
    : option (distribution * device) :=
  w ← set_lambda_window lambda;
  Some (init (probabilities w) (size w) (offset w)
          (Distribution (size w) (offset w) (dis_table d)) h).

(** [explicit poisson_distribution(double lambda) : poisson_distribution()
    { set_lambda(lambda); }] *)
Definition construct (lambda : double) (h : device)
    : option (distribution * device) :=
  set_lambda lambda empty_distribution h.

End libm.
End poisson_distribution.

(** ** The cache: [poisson_distribution_manager] *)

Record manager := Manager {
  dis : distribution;
  lambda : double
}.

Module poisson_distribution_manager.
Section libm.
Variables log exp lgamma : double → double.

(** [poisson_distribution_manager() = default]: [lambda = 0.0]. *)
Definition default : manager := Manager empty_distribution 0%float.

(** The move constructor: [dis(other.dis), lambda(other.lambda)] and then
    [other.dis = {}].  Returns the new manager and [other] afterwards. *)
Definition move_construct (other : manager) : manager * manager :=
  (Manager (dis other) (lambda other),
   Manager empty_distribution (lambda other)).

(** Move assignment onto [this] from another manager [other], a distinct
    object: [dis = other.dis; lambda = other.lambda; other.dis = {}].
    Returns [this] and [other] afterwards. *)
Definition move_assign (this other : manager) : manager * manager :=
  (Manager (dis other) (lambda other),
   Manager empty_distribution (lambda other)).

(** Move assignment of a manager to itself: the two copies do nothing and
    [other.dis = {}] empties its own distribution. *)
Definition move_assign_self (this : manager) : manager :=
  Manager empty_distribution (lambda this).

(** The destructor: [dis.deallocate()]. *)
Definition destroy (m : manager) (h : device) : device :=
  snd (deallocate (dis m) h).

(** [set_lambda(new_lambda)]: [changed = lambda != new_lambda], which is
    true when either is a NaN. *)
Definition set_lambda (new_lambda : double) (m : manager) (h : device)
    : option (manager * device) :=
  let changed := negb (lambda m =? new_lambda)%float in
  if changed then
    '(d, h') ← poisson_distribution.set_lambda log exp lgamma new_lambda (dis m) h;
    Some (Manager d new_lambda, h')
  else Some (m, h).

(** The managers a program can hold: a default-constructed one, and what
    [set_lambda] and the two moves make of managers it holds. *)
Inductive reachable : manager → Prop :=
| reach_default : reachable default
| reach_set_lambda new_lambda m h m' h' :
    reachable m → set_lambda new_lambda m h = Some (m', h') → reachable m'
| reach_moved other new other' :
    reachable other → move_construct other = (new, other') → reachable other'
| reach_constructed other new other' :
    reachable other → move_construct other = (new, other') → reachable new
| reach_assigned this other this' other' :
    reachable this → reachable other →
    move_assign this other = (this', other') → reachable this'
| reach_assigned_from this other this' other' :
    reachable this → reachable other →
    move_assign this other = (this', other') → reachable other'
| reach_assigned_self this :
    reachable this → reachable (move_assign_self this).

End libm.
End poisson_distribution_manager.

(** ** Programs that hold several managers

    A program names its managers by numbers and runs the members above on
    them, all on one device.  A statement that names a manager which is not
    alive, or declares one under a name in use, has no meaning and stops
    the run, as does a call whose behaviour is undefined. *)

Inductive call :=
| Construct (a : nat)                         (* [poisson_distribution_manager a;] *)
| MoveConstruct (a b : nat)                   (* [poisson_distribution_manager a(std::move(b));] *)
| MoveAssign (a b : nat)                      (* [a = std::move(b);] *)
| SetLambda (a : nat) (new_lambda : double)   (* [a.set_lambda(new_lambda);] *)
| Destroy (a : nat).                          (* the lifetime of [a] ends *)

Record program_state := ProgramState {
  live : gmap nat manager;
  heap : gmap nat (list float)
}.

Definition initial : program_state := ProgramState ∅ ∅.

Module program.
Section libm.
Variables log exp lgamma : double → double.

Definition exec (c : call) (s : program_state) : option program_state :=
  match c with
  | Construct a =>
      match live s !! a with
      | Some _ => None
      | None =>
          Some (ProgramState
                  (<[a := poisson_distribution_manager.default]> (live s)) (heap s))
      end
  | MoveConstruct a b =>
      match live s !! a with
      | Some _ => None
      | None =>
          other ← live s !! b;
          let '(new, other') := poisson_distribution_manager.move_construct other in
          Some (ProgramState (<[a := new]> (<[b := other']> (live s))) (heap s))
      end
  | MoveAssign a b =>
      this ← live s !! a;
      if decide (a = b)
      then Some (ProgramState
                   (<[a := poisson_distribution_manager.move_assign_self this]> (live s))
                   (heap s))
      else
        other ← live s !! b;
        let '(this', other') := poisson_distribution_manager.move_assign this other in
        Some (ProgramState (<[a := this']> (<[b := other']> (live s))) (heap s))
  | SetLambda a new_lambda =>
      m ← live s !! a;
      '(m', h') ← poisson_distribution_manager.set_lambda log exp lgamma
                    new_lambda m (heap s);
      Some (ProgramState (<[a := m']> (live s)) h')
  | Destroy a =>
      m ← live s !! a;
      Some (ProgramState (delete a (live s))
              (poisson_distribution_manager.destroy m (heap s)))
  end.

Fixpoint run (cs : list call) (s : program_state) : option program_state :=
  match cs with
  | [] => Some s
  | c :: cs => s' ← exec c s; run cs s'
  end.

(** A move assignment whose destination holds a structure at that point. *)
Definition overwrites (c : call) (s : program_state) : bool :=
  match c with
  | MoveAssign a _ =>
      match live s !! a with
      | Some this => bool_decide (is_Some (dis_table (dis this)))
      | None => false
      end
  | _ => false
  end.

(** No statement of the run is such a move assignment. *)
Fixpoint assigns_onto_empty (cs : list call) (s : program_state) : bool :=
  match cs with
  | [] => true
  | c :: cs =>
      negb (overwrites c s)
      && match exec c s with
         | Some s' => assigns_onto_empty cs s'
         | None => true
         end
  end.

End libm.
End program.

(** Manager [i] holds the structure [a]. *)
Definition owns (s : program_state) (i a : nat) : Prop :=
  ∃ m, live s !! i = Some m ∧ dis_table (dis m) = Some a.

Section invariants.
Variables log exp lgamma : float → float.

(** The structure a manager holds is allocated, and no other manager
    holds it. *)
Definition exclusive (s : program_state) : Prop :=
  (∀ i a, owns s i a → is_Some (heap s !! a))
  ∧ (∀ i j a, owns s i a → owns s j a → i = j).

(** The structure a manager holds is the one built for the rate it
    stores; a manager without a structure has the members of a
    default-constructed distribution. *)
Definition coherent (s : program_state) : Prop :=
  ∀ i m, live s !! i = Some m →
    match dis_table (dis m) with
    | Some a =>
        ∃ w, poisson_distribution.set_lambda_window log exp lgamma (lambda m) = Some w
             ∧ dis_size (dis m) = size w
             ∧ dis_offset (dis m) = offset w
             ∧ heap s !! a = Some (take (Z.to_nat (size w)) (probabilities w))
    | None => dis m = empty_distribution
    end.

(** Every allocation is held by a manager. *)
Definition no_leak (s : program_state) : Prop :=
  ∀ a, is_Some (heap s !! a) → ∃ i, owns s i a.

End invariants.

(** ** Executable stand-ins for the <cmath> functions

    Used only to run the builder on concrete rates in the examples below;
    every theorem about the builder holds for arbitrary [log], [exp] and
    [lgamma].  They return the values Annex F of the C standard fixes at
    zeros, infinities and NaN, and close approximations elsewhere
    ([lgamma] at the integers, the only arguments the builder passes). *)
Module reference_libm.

Definition ln2 : double := 0x1.62e42fefa39efp-1%float.

(** [sum_{k < n} t2^k / (2k + 1)] by Horner's rule, from the last term. *)
Fixpoint atanh_series (t2 : double) (n : nat) (acc : double) : double :=
  match n with
  | O => acc
  | S n' =>
      atanh_series t2 n'
        (1 / int_to_double (2 * Z.of_nat n' + 1) + t2 * acc)%float
  end.

Definition log (x : double) : double :=
  if negb (x =? x)%float then nan
  else if (x <? 0)%float then nan
  else if (x =? 0)%float then neg_infinity
  else if (x =? infinity)%float then infinity
  else
    let '(m, e) := Z.frexp x in
    let '(m, e) :=
      if (m <? 0x1.6a09e667f3bcdp-1)%float then ((2 * m)%float, e - 1)
      else (m, e) in
    let t := ((m - 1) / (m + 1))%float in
    (int_to_double e * ln2 + 2 * t * atanh_series (t * t) 14 0)%float.

(** [sum_{k < n} r^k / k!] by Horner's rule, from the last term. *)
Fixpoint exp_series (r : double) (n : nat) (acc : double) : double :=
  match n with
  | O => acc
  | S n' =>
      exp_series r n'
        (match n' with
         | O => acc
         | S _ => 1 + r * acc / int_to_double (Z.of_nat n')
         end)%float
  end.

Definition exp (x : double) : double :=
  if negb (x =? x)%float then nan
  else if (710 <? x)%float then infinity
  else if (x <? -746)%float then 0%float
  else
    match floor_Z (x / ln2 + 0.5)%float with
    | Some k =>
        let r := (x - int_to_double k * ln2)%float in
        Z.ldexp (exp_series r 22 1) k
    | None => nan
    end.

(** [sum_{2 <= j < n} log j], built downward from [j = n - 1]. *)
Fixpoint log_factorial (n : nat) : double :=
  match n with
  | O => 0%float
  | S n' =>
      match n' with
      | O => 0%float
      | S _ => (log (int_to_double (Z.of_nat n)) + log_factorial n')%float
      end
  end.

Definition lgamma (x : double) : double :=
  match trunc_Z x with
  | Some n => if n <=? 0 then infinity else log_factorial (Z.to_nat (n - 1))
  | None => (x * x)%float
  end.

End reference_libm.

(** ** The design's statements

    What the design says the table holds, written independently of the
    loops: the probability formula, the threshold test, the two cutoffs,
    the capacity formula and the range of rates. *)

Section specification.
Variables log exp lgamma : float → float.
Variable lam : float.

(** The Poisson probability of [x] evaluated in log space, as the header
    writes it: [exp(x * log(lambda) - lgamma(x + 1) - lambda)]. *)
Definition log_space_pmf (x : Z) : float :=
  let xd := int_to_double x in
  exp (xd * log lam - lgamma (xd + 1) - lam)%float.

(** The threshold test [pp < p_epsilon] at [x]. *)
Definition below (x : Z) : bool :=
  (log_space_pmf x <? poisson_distribution.p_epsilon)%float.

(** The cutoffs as the design states them.  [lo] is one more than the
    first index, going down from [half], whose probability is below the
    threshold, and 0 when there is none. *)
Definition cutoff_lo (left half lo : Z) : Prop :=
  (lo = 0 ∧ ∀ i, 0 ≤ i ≤ half → below (left + i) = false)
  ∨ (∃ i, 0 ≤ i ≤ half ∧ lo = i + 1 ∧ below (left + i) = true
        ∧ ∀ i', i < i' ≤ half → below (left + i') = false).

(** [hi] is one less than the first index, going up from [half + 1],
    whose probability is below the threshold, and [capacity - 1] when
    there is none. *)
Definition cutoff_hi (left half capacity hi : Z) : Prop :=
  (hi = capacity - 1 ∧ ∀ i, half < i ≤ capacity - 1 → below (left + i) = false)
  ∨ (∃ i, half < i ≤ capacity - 1 ∧ hi = i - 1 ∧ below (left + i) = true
        ∧ ∀ i', half < i' < i → below (left + i') = false).

End specification.

(** The argument of the capacity's cast. *)
Definition capacity_arg (lambda : float) : float :=
  (16 * (2 + PrimFloat.sqrt lambda))%float.

(** The capacity as the design states it:
    [2 * floor(16 * (2 + sqrt(lambda)))], evaluated in doubles. *)
Definition capacity_formula (lambda : float) : option Z :=
  n ← floor_Z (16 * (2 + PrimFloat.sqrt lambda))%float; Some (2 * n).

(** The rates the builder is defined on: positive, with a floor that
    leaves room for the window inside [int]. *)
Definition supported_rate (lam : float) : bool :=
  (0 <? lam)%float
  && match floor_to_int lam with
     | Some fl => fl <=? INT_MAX - 2 ^ 26
     | None => false
     end.

(** A positive finite float in [[2^(L-1), 2^K)]. *)
Definition pos_between (L K : Z) (x : spec_float) : Prop :=
  match x with
  | S754_finite false m e => L ≤ Z.pos (digits2_pos m) + e ≤ K
  | _ => False
  end.

(** The builder and the cache run with the stand-ins. *)
Definition reference_window : float → option window :=
  poisson_distribution.set_lambda_window
    reference_libm.log reference_libm.exp reference_libm.lgamma.

Definition reference_set_lambda
    : float → manager → gmap nat (list float) → option (manager * gmap nat (list float)) :=
  poisson_distribution_manager.set_lambda
    reference_libm.log reference_libm.exp reference_libm.lgamma.

Definition no_window : window := Window [] 0 0.

(** The windows of the rates 10, 0 and 0.5. *)
Definition window_of_10 : window :=
  Eval vm_compute in default no_window (reference_window 10).

Definition window_of_0 : window :=
  Eval vm_compute in default no_window (reference_window 0).

Definition window_of_half : window :=
  Eval vm_compute in default no_window (reference_window 0.5).

(** Two caches on one device, the first built for the rate 10 and the
    second for the rate 0.5. *)
Definition two_caches : option (manager * manager * gmap nat (list float)) :=
  '(m1, h1) ← reference_set_lambda 10 poisson_distribution_manager.default ∅;
  '(m2, h2) ← reference_set_lambda 0.5 poisson_distribution_manager.default h1;
  Some (m1, m2, h2).

Definition reference_run : list call → program_state → option program_state :=
  program.run reference_libm.log reference_libm.exp reference_libm.lgamma.

(** Three managers: the first is set to the rate 10 and moved into the
    third, the second is set to 0.5 and then to 10; the first two are
    destroyed. *)
Definition three_managers : list call :=
  [Construct 0; SetLambda 0 10; Construct 1; SetLambda 1 0.5;
   MoveConstruct 2 0; SetLambda 1 10; MoveAssign 0 0; Destroy 0; Destroy 1].

(** * Properties *)

(** ** Machine integers and vectors *)

Lemma in_int_iff z : in_int z = true ↔ INT_MIN ≤ z ≤ INT_MAX.
Proof. unfold in_int. rewrite andb_true_iff, !Z.leb_le. tauto. Qed.

Lemma floor_to_int_le lam fl : floor_to_int lam = Some fl → INT_MIN ≤ fl ≤ INT_MAX.
Proof.
  unfold floor_to_int. destruct (floor_Z lam); [|discriminate]. simpl.
  destruct (in_int z) eqn:Ei; [|discriminate]. intros [= <-].
  by apply in_int_iff.
Qed.

Lemma int_add_Some a b r :
  int_add a b = Some r ↔ r = a + b ∧ INT_MIN ≤ a + b ≤ INT_MAX.
Proof.
  unfold int_add. destruct (in_int (a + b)) eqn:E.
  - apply in_int_iff in E. split; [intros [= <-]; auto | intros [-> _]; auto].
  - split; [discriminate |]. intros [_ H]. apply in_int_iff in H. congruence.
Qed.

Lemma int_sub_Some a b r :
  int_sub a b = Some r ↔ r = a - b ∧ INT_MIN ≤ a - b ≤ INT_MAX.
Proof.
  unfold int_sub. destruct (in_int (a - b)) eqn:E.
  - apply in_int_iff in E. split; [intros [= <-]; auto | intros [-> _]; auto].
  - split; [discriminate |]. intros [_ H]. apply in_int_iff in H. congruence.
Qed.

Lemma to_int_id z : INT_MIN ≤ z ≤ INT_MAX → to_int z = z.
Proof.
  unfold to_int, INT_MIN, INT_MAX. intros H.
  rewrite Z.mod_small; lia.
Qed.

Lemma to_size_t_id z : 0 ≤ z ≤ SIZE_MAX → to_size_t z = z.
Proof. unfold to_size_t, SIZE_MAX. intros H. apply Z.mod_small. lia. Qed.

Lemma to_int_to_size_t z : INT_MIN ≤ z ≤ INT_MAX → to_int (to_size_t z) = z.
Proof.
  intros H. rewrite <- (to_int_id z H) at 2. unfold to_int, to_size_t. f_equal.
  rewrite (Z.div_mod z (2 ^ 64)) at 2 by lia.
  replace (2 ^ 64 * (z / 2 ^ 64) + z mod 2 ^ 64 + 2 ^ 31)
    with (z mod 2 ^ 64 + 2 ^ 31 + (2 ^ 32 * (z / 2 ^ 64)) * 2 ^ 32) by lia.
  by rewrite Z_mod_plus_full.
Qed.

(** With a floor that is not negative and a capacity far from the [int]
    range, [left] is the difference itself. *)
Lemma left_of_exact fl c :
  0 ≤ fl ≤ INT_MAX → 0 ≤ c ≤ 2 ^ 26 →
  poisson_distribution.left_of fl c = fl - c / 2.
Proof.
  intros Hfl Hc. unfold poisson_distribution.left_of.
  assert (0 ≤ c / 2 ≤ 2 ^ 26).
  { split; [apply Z.div_pos; lia|]. apply Z.div_le_upper_bound; lia. }
  assert (HIM : INT_MAX = 2147483647) by reflexivity.
  assert (HIm : INT_MIN = -2147483648) by reflexivity.
  rewrite (to_size_t_id fl) by (unfold SIZE_MAX; lia).
  apply to_int_to_size_t. lia.
Qed.

Lemma vset_Some (p : list float) i v p' :
  vset p i v = Some p' ↔
  0 ≤ i < Z.of_nat (length p) ∧ p' = <[Z.to_nat i := v]> p.
Proof.
  unfold vset.
  destruct ((0 <=? i) && (i <? Z.of_nat (length p))) eqn:E.
  - apply andb_true_iff in E as [E1%Z.leb_le E2%Z.ltb_lt].
    split; [intros [= <-]; auto | intros [_ ->]; auto].
  - split; [discriminate |]. intros [[H1 H2] _].
    apply Z.leb_le in H1. apply Z.ltb_lt in H2. rewrite H1, H2 in E. discriminate.
Qed.

Lemma vget_Some (p : list float) i v :
  vget p i = Some v ↔ 0 ≤ i ∧ p !! Z.to_nat i = Some v.
Proof.
  unfold vget. destruct (0 <=? i) eqn:E.
  - apply Z.leb_le in E. tauto.
  - apply Z.leb_gt in E. split; [discriminate | lia].
Qed.

(** ** The magnitude of rounded results

    Bounds on the binary64 operations of the capacity formula, from their
    specification in [SpecFloat]: a rounding step moves a value by less
    than a factor of two. *)

Lemma digits2_pos_log2 m : Z.pos (digits2_pos m) = Z.log2 (Z.pos m) + 1.
Proof.
  induction m as [m IH|m IH|]; simpl; try reflexivity.
  - rewrite Pos2Z.inj_succ, IH. destruct m; simpl; lia.
  - rewrite Pos2Z.inj_succ, IH. destruct m; simpl; lia.
Qed.

Lemma Zdigits2_log2 m : 0 < m → Zdigits2 m = Z.log2 m + 1.
Proof. destruct m as [|m|m]; try lia. intros _. apply digits2_pos_log2. Qed.

Lemma shr_1_m mrs : 0 ≤ shr_m mrs → shr_m (shr_1 mrs) = Z.shiftr (shr_m mrs) 1.
Proof.
  destruct mrs as [m r s]. simpl. intros Hm.
  destruct m as [|[m|m|]|m]; simpl; try reflexivity; lia.
Qed.

Lemma iter_shr_1_m p : ∀ mrs, 0 ≤ shr_m mrs →
  shr_m (SpecFloat.iter_pos shr_1 p mrs) = Z.shiftr (shr_m mrs) (Z.pos p).
Proof.
  induction p as [p IH|p IH|]; intros mrs Hm; simpl.
  - assert (H1 : 0 ≤ shr_m (shr_1 mrs)).
    { rewrite shr_1_m by done. by apply Z.shiftr_nonneg. }
    assert (H2 : 0 ≤ shr_m (SpecFloat.iter_pos shr_1 p (shr_1 mrs))).
    { rewrite IH by done. by apply Z.shiftr_nonneg. }
    rewrite IH, IH, shr_1_m by done.
    rewrite !Z.shiftr_shiftr by lia. f_equal. lia.
  - assert (H2 : 0 ≤ shr_m (SpecFloat.iter_pos shr_1 p mrs)).
    { rewrite IH by done. by apply Z.shiftr_nonneg. }
    rewrite IH, IH by done.
    rewrite !Z.shiftr_shiftr by lia. f_equal. lia.
  - by apply shr_1_m.
Qed.

(** [shr_fexp] shifts the mantissa right until the exponent is the
    canonical one. *)
Lemma shr_fexp_m m e l mrs e' :
  0 ≤ m →
  shr_fexp prec emax m e l = (mrs, e') →
  ∃ n, n = Z.max 0 (Z.max (Zdigits2 m + e - 53) (-1074) - e)
       ∧ shr_m mrs = Z.shiftr m n ∧ e' = e + n.
Proof.
  intros Hm. unfold shr_fexp, shr.
  assert (Hl : shr_m (shr_record_of_loc m l) = m).
  { destruct l as [|[]]; reflexivity. }
  change (fexp prec emax (Zdigits2 m + e))
    with (Z.max (Zdigits2 m + e - 53) (-1074)).
  destruct (Z.max (Zdigits2 m + e - 53) (-1074) - e) as [|n|n] eqn:En.
  - intros [= <- <-]. exists 0. simpl. rewrite Hl. split; [reflexivity |]. split; [reflexivity | lia].
  - intros [= <- <-]. exists (Z.pos n). rewrite iter_shr_1_m by lia. rewrite Hl.
    split; [lia | done].
  - intros [= <- <-]. exists 0. simpl. rewrite Hl. split; [lia|]. split; [reflexivity | lia].
Qed.

Lemma round_nearest_even_range m l :
  m ≤ round_nearest_even m l ≤ m + 1.
Proof. destruct l as [|[]]; simpl; try lia. destruct (Z.even m); lia. Qed.

(** magnitude of a non-negative mantissa and exponent: 0 for zero mantissa *)
Lemma Zdigits2_shiftr m n : 0 < m → 0 ≤ n → 0 < Z.shiftr m n →
  Zdigits2 (Z.shiftr m n) + n = Zdigits2 m.
Proof.
  intros Hm Hn Hs. rewrite !Zdigits2_log2 by done.
  rewrite Z.log2_shiftr by done.
  assert (n ≤ Z.log2 m); [|lia].
  apply Z.log2_le_pow2; [done|].
  rewrite Z.shiftr_div_pow2 in Hs by done.
  destruct (Z.lt_ge_cases m (2 ^ n)) as [Hlt|]; [|done].
  rewrite Z.div_small in Hs; lia.
Qed.

Lemma Zdigits2_nonneg m : 0 ≤ Zdigits2 m.
Proof. destruct m; simpl; lia. Qed.

Lemma Zdigits2_mono a b : 0 ≤ a ≤ b → Zdigits2 a ≤ Zdigits2 b.
Proof.
  intros [Ha Hab]. destruct (decide (a = 0)) as [->|]; [apply Zdigits2_nonneg|].
  rewrite !Zdigits2_log2 by lia. apply Z.add_le_mono_r, Z.log2_le_mono. lia.
Qed.

Lemma Zdigits2_succ a : 0 ≤ a → Zdigits2 (a + 1) ≤ Zdigits2 a + 1.
Proof.
  intros Ha. destruct (decide (a = 0)) as [->|]; [simpl; lia|].
  rewrite !Zdigits2_log2 by lia. pose proof (Z.log2_succ_le a) as H.
  rewrite <- Z.add_1_r in H. lia.
Qed.

Lemma shiftr_zero_log2 a n : 0 < a → 0 ≤ n → Z.shiftr a n = 0 → Z.log2 a < n.
Proof.
  intros Ha Hn Hz. rewrite Z.shiftr_div_pow2 in Hz by done.
  apply Z.log2_lt_pow2; [done|].
  destruct (Z.lt_ge_cases a (2 ^ n)) as [|Hge]; [done|].
  assert (1 ≤ a / 2 ^ n); [|lia].
  apply Z.div_le_lower_bound; lia.
Qed.

(** One rounding step: the mantissa is cut to the precision and rounded
    to nearest.  The result stays below the next power of two above the
    input and, away from underflow, does not fall below the power of two
    below it. *)
Lemma binary_round_aux_mag s m e l K :
  0 < m →
  Zdigits2 m + e ≤ K → -1074 ≤ K → K ≤ 971 →
  match binary_round_aux prec emax s m e l with
  | S754_zero s' => s' = s ∧ Zdigits2 m + e ≤ -1074
  | S754_finite s' m' e' =>
      s' = s ∧ Z.pos (digits2_pos m') + e' ≤ K + 1
      ∧ (-1074 < Zdigits2 m + e → Zdigits2 m + e ≤ Z.pos (digits2_pos m') + e')
  | _ => False
  end.
Proof.
  intros Hm HK HK1 HK2. unfold binary_round_aux.
  destruct (shr_fexp prec emax m e l) as [mrs1 e1] eqn:E1.
  apply shr_fexp_m in E1 as (n1 & Hn1 & Hm1 & He1); [|lia].
  pose proof (round_nearest_even_range (shr_m mrs1) (loc_of_shr_record mrs1)) as Hr.
  remember (round_nearest_even (shr_m mrs1) (loc_of_shr_record mrs1)) as m2 eqn:Em2.
  clear Em2.
  remember (shr_m mrs1) as m1 eqn:Em1. clear Em1.
  assert (Hm1nn : 0 ≤ m1). { rewrite Hm1. apply Z.shiftr_nonneg. lia. }
  destruct (shr_fexp prec emax m2 e1 loc_Exact) as [mrs2 e2] eqn:E2.
  apply shr_fexp_m in E2 as (n2 & Hn2 & Hm3 & He2); [|lia].
  pose proof (Zdigits2_log2 m Hm) as Hd. pose proof (Z.log2_nonneg m) as Hdn.
  (* magnitude after the first shift *)
  assert (H1 : (m1 = 0 ∧ Zdigits2 m + e ≤ -1074 ∧ e1 = -1074)
               ∨ (0 < m1 ∧ Zdigits2 m1 + e1 = Zdigits2 m + e)).
  { destruct (decide (m1 = 0)) as [Hz|Hnz].
    - left. split; [done|]. rewrite Hm1 in Hz.
      apply shiftr_zero_log2 in Hz; lia.
    - right. split; [lia|]. rewrite Hm1, He1.
      rewrite <- (Zdigits2_shiftr m n1) by lia. lia. }
  assert (Hd2 : Zdigits2 m1 ≤ Zdigits2 m2 ≤ Zdigits2 m1 + 1).
  { split; [apply Zdigits2_mono; lia|].
    etrans; [apply (Zdigits2_mono m2 (m1 + 1)); lia|].
    apply Zdigits2_succ. lia. }
  assert (H3 : ∀ m3, shr_m mrs2 = Z.pos m3 →
               Z.pos (digits2_pos m3) + e2 = Zdigits2 m2 + e1).
  { intros m3 E3. rewrite Hm3 in E3. rewrite He2.
    change (Z.pos (digits2_pos m3)) with (Zdigits2 (Z.pos m3)). rewrite <- E3.
    assert (0 < m2).
    { destruct (decide (m2 = 0)) as [->|]; [|lia]. rewrite Z.shiftr_0_l in E3. lia. }
    rewrite <- (Zdigits2_shiftr m2 n2) by lia. lia. }
  destruct (shr_m mrs2) as [|m3|m3] eqn:E3.
  - split; [done|].
    destruct H1 as [(Hz & Hu & _)|[Hp Hmag]]; [done|].
    symmetry in Hm3. apply shiftr_zero_log2 in Hm3; [|lia..].
    pose proof (Zdigits2_log2 m2 ltac:(lia)). lia.
  - specialize (H3 m3 eq_refl).
    assert (Hmag2 : Zdigits2 m2 + e1 ≤ K + 1).
    { destruct H1 as [(-> & Hu & ->)|[Hp Hmag]]; [|lia].
      assert (Zdigits2 m2 ≤ 1); [|lia].
      etrans; [apply (Zdigits2_mono m2 1); lia | done]. }
    assert (He2b : e2 ≤ 971).
    { pose proof (Zdigits2_nonneg m2).
      assert (0 < Z.pos (digits2_pos m3)) by lia. lia. }
    change (emax - prec) with 971.
    apply Z.leb_le in He2b. rewrite He2b.
    split; [done|]. split; [lia|].
    intros Hn. destruct H1 as [(-> & Hu & ->)|[Hp Hmag]]; lia.
  - exfalso. assert (0 ≤ Z.neg m3); [|lia].
    rewrite Hm3. apply Z.shiftr_nonneg. lia.
Qed.

Lemma pos_iter_xO m d : Z.pos (Pos.iter xO m d) = Z.pos m * 2 ^ Z.pos d.
Proof.
  induction d as [|d IH] using Pos.peano_ind.
  - simpl. lia.
  - rewrite Pos.iter_succ, Pos2Z.inj_xO, IH, Pos2Z.inj_succ, Z.pow_succ_r by lia. lia.
Qed.

(** Aligning a mantissa to a smaller exponent keeps the value. *)
Lemma shl_align_value m e e' :
  ∃ k, 0 ≤ k ∧ (e' ≤ e → k = e - e')
       ∧ shl_align m e e' = (Z.to_pos (Z.pos m * 2 ^ k), e - k)
       ∧ Z.pos (fst (shl_align m e e')) = Z.pos m * 2 ^ k.
Proof.
  unfold shl_align. destruct (e' - e) as [|d|d] eqn:Ed.
  - exists 0. rewrite Z.mul_1_r, Z.sub_0_r. simpl. repeat split; auto; lia.
  - exists 0. rewrite Z.mul_1_r, Z.sub_0_r. simpl. repeat split; auto; lia.
  - exists (Z.pos d). split; [lia|]. split; [lia|]. simpl.
    rewrite <- pos_iter_xO. simpl. split; [|done]. f_equal. lia.
Qed.

Lemma Zdigits2_mul_pow2 m k : 0 < m → 0 ≤ k → Zdigits2 (m * 2 ^ k) = Zdigits2 m + k.
Proof.
  intros Hm Hk. assert (0 < 2 ^ k) by (apply Z.pow_pos_nonneg; lia).
  rewrite !Zdigits2_log2 by lia.
  rewrite <- Z.shiftl_mul_pow2, Z.log2_shiftl by lia. lia.
Qed.

(** [binary_round]: alignment, then one rounding step. *)
Lemma binary_round_mag s m e K :
  Zdigits2 (Z.pos m) + e ≤ K → -1074 ≤ K → K ≤ 971 →
  match binary_round prec emax s m e with
  | S754_zero s' => s' = s ∧ Zdigits2 (Z.pos m) + e ≤ -1074
  | S754_finite s' m' e' =>
      s' = s ∧ Z.pos (digits2_pos m') + e' ≤ K + 1
      ∧ (-1074 < Zdigits2 (Z.pos m) + e →
         Zdigits2 (Z.pos m) + e ≤ Z.pos (digits2_pos m') + e')
  | _ => False
  end.
Proof.
  intros HK HK1 HK2. unfold binary_round.
  destruct (shl_align_value m e (fexp prec emax (Z.pos (digits2_pos m) + e)))
    as (k & Hk & _ & -> & _).
  assert (Hp : 0 < Z.pos m * 2 ^ k).
  { apply Z.mul_pos_pos; [lia | apply Z.pow_pos_nonneg; lia]. }
  assert (Hmag : Zdigits2 (Z.pos (Z.to_pos (Z.pos m * 2 ^ k))) + (e - k)
                 = Zdigits2 (Z.pos m) + e).
  { rewrite Z2Pos.id by done. rewrite Zdigits2_mul_pow2 by lia. lia. }
  pose proof (binary_round_aux_mag s (Z.pos (Z.to_pos (Z.pos m * 2 ^ k))) (e - k)
                loc_Exact K ltac:(lia) ltac:(lia) HK1 HK2) as H.
  rewrite Hmag in H. exact H.
Qed.

Lemma SFmul_mag mx ex my ey Lx Kx Ly Ky :
  Lx ≤ Z.pos (digits2_pos mx) + ex ≤ Kx →
  Ly ≤ Z.pos (digits2_pos my) + ey ≤ Ky →
  -1073 ≤ Lx + Ly - 1 → Kx + Ky ≤ 971 →
  pos_between (Lx + Ly - 1) (Kx + Ky + 1)
    (SF64mul (S754_finite false mx ex) (S754_finite false my ey)).
Proof.
  intros Hx Hy HL HK. unfold SF64mul, SFmul. simpl xorb.
  rewrite !digits2_pos_log2 in *.
  assert (Hd : Z.log2 (Z.pos mx) + Z.log2 (Z.pos my) + 1
               ≤ Zdigits2 (Z.pos (mx * my))
               ≤ Z.log2 (Z.pos mx) + Z.log2 (Z.pos my) + 2).
  { rewrite Zdigits2_log2, Pos2Z.inj_mul by lia.
    pose proof (Z.log2_mul_below (Z.pos mx) (Z.pos my)).
    pose proof (Z.log2_mul_above (Z.pos mx) (Z.pos my)). lia. }
  pose proof (binary_round_aux_mag false (Z.pos (mx * my)) (ex + ey) loc_Exact
                (Kx + Ky) ltac:(lia) ltac:(lia) ltac:(lia) HK) as H.
  destruct (binary_round_aux _ _ _ _ _ _) as [s|s| |s m e]; try done; [lia|].
  destruct H as (-> & H1 & H2). simpl. rewrite digits2_pos_log2 in *. lia.
Qed.

Lemma SFadd_mag mx ex my ey Lx Kx Ky :
  Lx ≤ Z.pos (digits2_pos mx) + ex ≤ Kx →
  Z.pos (digits2_pos my) + ey ≤ Ky →
  -1073 ≤ Lx → Z.max Kx Ky + 1 ≤ 971 →
  pos_between Lx (Z.max Kx Ky + 2)
    (SF64add (S754_finite false mx ex) (S754_finite false my ey)).
Proof.
  intros Hx Hy HL HK. unfold SF64add, SFadd.
  set (ez := Z.min ex ey).
  destruct (shl_align_value mx ex ez) as (kx & Hkx & Hkx' & _ & ->).
  destruct (shl_align_value my ey ez) as (ky & Hky & Hky' & _ & ->).
  specialize (Hkx' ltac:(lia)). specialize (Hky' ltac:(lia)).
  assert (Hpx : 0 < Z.pos mx * 2 ^ kx).
  { apply Z.mul_pos_pos; [lia | apply Z.pow_pos_nonneg; lia]. }
  assert (Hpy : 0 < Z.pos my * 2 ^ ky).
  { apply Z.mul_pos_pos; [lia | apply Z.pow_pos_nonneg; lia]. }
  simpl cond_Zopp.
  destruct (Z.pos mx * 2 ^ kx + Z.pos my * 2 ^ ky) as [|msum|msum] eqn:Es; try lia.
  simpl binary_normalize.
  pose proof (Zdigits2_mul_pow2 (Z.pos mx) kx ltac:(lia) Hkx) as Hdx.
  pose proof (Zdigits2_mul_pow2 (Z.pos my) ky ltac:(lia) Hky) as Hdy.
  simpl Zdigits2 in Hdx, Hdy.
  assert (Hlow : Zdigits2 (Z.pos mx * 2 ^ kx) ≤ Zdigits2 (Z.pos msum)).
  { apply Zdigits2_mono. lia. }
  assert (Hup : Zdigits2 (Z.pos msum) ≤ Z.max Kx Ky + 1 - ez).
  { rewrite Zdigits2_log2 by lia.
    assert (Z.log2 (Z.pos msum) < Z.max Kx Ky + 1 - ez); [|lia].
    apply Z.log2_lt_pow2; [lia|].
    assert (Hbx : Z.pos mx * 2 ^ kx < 2 ^ (Z.max Kx Ky - ez)).
    { apply Z.log2_lt_pow2; [done|]. rewrite Zdigits2_log2 in Hdx by done. lia. }
    assert (Hby : Z.pos my * 2 ^ ky < 2 ^ (Z.max Kx Ky - ez)).
    { apply Z.log2_lt_pow2; [done|]. rewrite Zdigits2_log2 in Hdy by done. lia. }
    replace (Z.max Kx Ky + 1 - ez) with (Z.succ (Z.max Kx Ky - ez)) by lia.
    rewrite Z.pow_succ_r; [lia|].
    pose proof (Z.log2_nonneg (Z.pos mx * 2 ^ kx)).
    rewrite Zdigits2_log2 in Hdx by done. lia. }
  pose proof (binary_round_mag false msum ez (Z.max Kx Ky + 1)
                ltac:(lia) ltac:(lia) HK) as H.
  destruct (binary_round _ _ _ _ _) as [s|s| |s m e]; try done; [lia|].
  destruct H as (-> & H1 & H2). simpl. lia.
Qed.

(** The square root of a positive float below [2^K] is below
    [2^((K + 1) / 2 + 1)]. *)
Lemma SFsqrt_mag m e K :
  Z.pos (digits2_pos m) + e ≤ K → -2148 ≤ K → K ≤ 1940 →
  match SF64sqrt (S754_finite false m e) with
  | S754_zero _ => True
  | S754_finite false m' e' => Z.pos (digits2_pos m') + e' ≤ (K + 1) / 2 + 1
  | _ => False
  end.
Proof.
  intros HK HK1 HK2. unfold SF64sqrt, SFsqrt, SFsqrt_core_binary.
  change (Zdigits2 (Z.pos m)) with (Z.pos (digits2_pos m)).
  set (d := Z.pos (digits2_pos m)) in *.
  set (e' := Z.min (fexp prec emax (Z.div2 (d + e + 1))) (Z.div2 e)).
  set (sh := e - 2 * e').
  assert (Hsh : 0 ≤ sh).
  { unfold sh, e'. rewrite (Z.div2_div e).
    pose proof (Z.mul_div_le e 2 ltac:(lia)). lia. }
  assert (Hm' : match sh with
                | Z.pos _ => Z.shiftl (Z.pos m) sh
                | 0 => Z.pos m
                | Z.neg _ => 0
                end = Z.pos m * 2 ^ sh).
  { destruct sh as [|p|p] eqn:Ep; [simpl; lia | | lia].
    rewrite Z.shiftl_mul_pow2 by lia. done. }
  rewrite Hm'. clear Hm'.
  assert (Hp : 0 < Z.pos m * 2 ^ sh).
  { apply Z.mul_pos_pos; [lia | apply Z.pow_pos_nonneg; lia]. }
  pose proof (Z.sqrtrem_sqrt (Z.pos m * 2 ^ sh)) as Hq.
  destruct (Z.sqrtrem (Z.pos m * 2 ^ sh)) as [q r]. simpl in Hq. subst q.
  set (q := Z.sqrt (Z.pos m * 2 ^ sh)).
  pose proof (Z.sqrt_spec (Z.pos m * 2 ^ sh) ltac:(lia)) as [Hq1 Hq2]. fold q in Hq1, Hq2.
  assert (Hq0 : 0 < q).
  { destruct (Z.lt_ge_cases 0 q) as [|Hle]; [done|].
    pose proof (Z.sqrt_nonneg (Z.pos m * 2 ^ sh)). fold q in H. 
    assert (q = 0) by lia. rewrite H0 in Hq2. simpl in Hq2. lia. }
  set (k := (d + sh + 1) / 2).
  assert (Hk : d + sh ≤ 2 * k).
  { unfold k. pose proof (Z.mul_succ_div_gt (d + sh + 1) 2 ltac:(lia)). lia. }
  assert (Hk0 : 0 ≤ k). { unfold k. apply Z.div_pos; lia. }
  assert (Hqk : q < 2 ^ k).
  { assert (Hlt : Z.pos m * 2 ^ sh < 2 ^ (2 * k)).
    { apply Z.log2_lt_pow2; [done|].
      pose proof (Zdigits2_mul_pow2 (Z.pos m) sh ltac:(lia) Hsh) as Hd.
      rewrite Zdigits2_log2 in Hd by done. simpl Zdigits2 in Hd. fold d in Hd. lia. }
    rewrite Z.pow_mul_r in Hlt by lia.
    assert (0 < 2 ^ k) by (apply Z.pow_pos_nonneg; lia).
    replace ((2 ^ 2) ^ k) with (2 ^ k * 2 ^ k) in Hlt.
    2:{ rewrite <- Z.pow_mul_l. reflexivity. }
    nia. }
  assert (Hdq : Zdigits2 q ≤ k).
  { rewrite Zdigits2_log2 by done.
    assert (Z.log2 q < k); [|lia]. apply Z.log2_lt_pow2; done. }
  assert (Hmag : Zdigits2 q + e' ≤ (K + 1) / 2).
  { assert (k + e' ≤ (K + 1) / 2); [|lia].
    apply Z.div_le_lower_bound; [lia|].
    unfold k, sh.
    pose proof (Z.mul_div_le (d + (e - 2 * e') + 1) 2 ltac:(lia)). lia. }
  assert (Hr : ∀ l, match binary_round_aux prec emax false q e' l with
                    | S754_zero _ => True
                    | S754_finite false m' e'0 =>
                        Z.pos (digits2_pos m') + e'0 ≤ (K + 1) / 2 + 1
                    | _ => False
                    end).
  { intros l.
    assert (HKb : -1074 ≤ (K + 1) / 2 ≤ 971).
    { split; [apply Z.div_le_lower_bound; lia |].
      apply Z.lt_succ_r, Z.div_lt_upper_bound; lia. }
    pose proof (binary_round_aux_mag false q e' l ((K + 1) / 2) Hq0 Hmag
                  ltac:(lia) ltac:(lia)) as H.
    destruct (binary_round_aux _ _ _ _ _ _) as [s|s| |s m0 e0]; try done.
    destruct H as (-> & H1 & _). done. }
  destruct (r =? 0); apply Hr.
Qed.

(** ** The capacity *)

Lemma capacity_arg_spec x :
  Prim2SF (capacity_arg x)
  = SF64mul (S754_finite false 4503599627370496 (-48))
      (SF64add (S754_finite false 4503599627370496 (-51)) (SF64sqrt (Prim2SF x))).
Proof. unfold capacity_arg. rewrite mul_spec, add_spec, sqrt_spec. reflexivity. Qed.

(** [2 + y] and [16 * z] for a square root [y]. *)
Lemma capacity_arg_of_sqrt y :
  match y with
  | S754_zero _ => True
  | S754_finite false my ey => Z.pos (digits2_pos my) + ey ≤ 17
  | _ => False
  end →
  pos_between 6 25
    (SF64mul (S754_finite false 4503599627370496 (-48))
       (SF64add (S754_finite false 4503599627370496 (-51)) y)).
Proof.
  destruct y as [s|s| |[] my ey]; try done; intros Hy.
  pose proof (SFadd_mag 4503599627370496 (-51) my ey 2 2 17
                ltac:(vm_compute; split; discriminate) Hy ltac:(lia) ltac:(lia)) as Hz.
  destruct (SF64add _ _) as [s|s| |[] mz ez]; try done. simpl in Hz.
  exact (SFmul_mag 4503599627370496 (-48) mz ez 5 5 2 19
           ltac:(vm_compute; split; discriminate) ltac:(lia) ltac:(lia) ltac:(lia)).
Qed.

Lemma shiftl_pos_range m e L K :
  1 ≤ L → L ≤ Z.pos (digits2_pos m) + e ≤ K →
  2 ^ (L - 1) ≤ Z.shiftl (Z.pos m) e < 2 ^ K.
Proof.
  intros HL Hm. rewrite digits2_pos_log2 in Hm.
  assert (Hlog : Z.log2 (Z.shiftl (Z.pos m) e) = Z.log2 (Z.pos m) + e).
  { rewrite <- Z.shiftr_opp_r, Z.log2_shiftr by lia. lia. }
  assert (Hpos : 0 < Z.shiftl (Z.pos m) e).
  { destruct (Z.lt_ge_cases 0 (Z.shiftl (Z.pos m) e)) as [|Hle]; [done|].
    assert (0 ≤ Z.shiftl (Z.pos m) e) by (apply Z.shiftl_nonneg; lia).
    assert (Hz : Z.shiftr (Z.pos m) (- e) = 0) by (rewrite Z.shiftr_opp_r; lia).
    destruct (Z.le_gt_cases 0 e) as [He|He].
    - rewrite Z.shiftr_opp_r, Z.shiftl_mul_pow2 in Hz by done.
      assert (0 < 2 ^ e) by (apply Z.pow_pos_nonneg; lia). nia.
    - apply shiftr_zero_log2 in Hz; lia. }
  split.
  - apply Z.log2_le_pow2; [done | lia].
  - apply Z.log2_lt_pow2; [done | lia].
Qed.

(** A rate whose floor is an [int] is below [2^31]. *)
Lemma floor_int_mag m e fl :
  Z.shiftl (Z.pos m) e = fl → fl ≤ INT_MAX →
  0 ≤ fl ∧ Z.pos (digits2_pos m) + e ≤ 31.
Proof.
  intros <- Hle. split; [apply Z.shiftl_nonneg; lia|].
  destruct (Z.le_gt_cases (Z.pos (digits2_pos m) + e) 31) as [|Hgt]; [done|].
  pose proof (shiftl_pos_range m e 32 (Z.pos (digits2_pos m) + e)
                ltac:(lia) ltac:(lia)) as [H _].
  change (2 ^ (32 - 1)) with (INT_MAX + 1) in H. lia.
Qed.

Lemma double_parts_pos x m e :
  Prim2SF x = S754_finite false m e →
  trunc_Z x = Some (Z.shiftl (Z.pos m) e) ∧ floor_Z x = Some (Z.shiftl (Z.pos m) e).
Proof.
  intros H. unfold trunc_Z, floor_Z, double_parts. rewrite H. simpl.
  split; [|done]. f_equal. apply Z.mul_1_l.
Qed.

(** The value the capacity's cast sees is a double in [[32, 2^25)]
    whenever the rate is a zero or positive and below [2^31]. *)
Lemma capacity_arg_range lam :
  match Prim2SF lam with
  | S754_zero _ => True
  | S754_finite false m e => Z.pos (digits2_pos m) + e ≤ 31
  | _ => False
  end →
  ∃ mv ev, Prim2SF (capacity_arg lam) = S754_finite false mv ev
           ∧ 6 ≤ Z.pos (digits2_pos mv) + ev ≤ 25.
Proof.
  intros Hl. rewrite capacity_arg_spec.
  assert (Hy : match SF64sqrt (Prim2SF lam) with
               | S754_zero _ => True
               | S754_finite false my ey => Z.pos (digits2_pos my) + ey ≤ 17
               | _ => False
               end).
  { destruct (Prim2SF lam) as [s|s| |[] m e]; try done.
    exact (SFsqrt_mag m e 31 Hl ltac:(lia) ltac:(lia)). }
  apply capacity_arg_of_sqrt in Hy.
  destruct (SF64mul _ _) as [s|s| |[] mv ev]; try done. eauto.
Qed.

(** What the capacity is for every rate whose floor is an [int]: the
    conversion is defined exactly for the rates that are not negative, and
    then the capacity is twice the floor of the formula's value, between
    64 and [2^26]. *)
Lemma capacity_of_supported lam fl :
  floor_to_int lam = Some fl →
  match poisson_distribution.capacity_of lam with
  | Some c =>
      0 ≤ fl ∧ 64 ≤ c ≤ 2 ^ 26
      ∧ ∃ n, floor_Z (capacity_arg lam) = Some n ∧ c = 2 * n
  | None => (lam <? 0)%float = true
  end.
Proof.
  intros Hfl.
  assert (Hcase : (Prim2SF lam = S754_nan → False)
                  ∧ (∀ s, Prim2SF lam = S754_infinity s → False)
                  ∧ (∀ m e, Prim2SF lam = S754_finite false m e →
                       0 ≤ fl ∧ Z.pos (digits2_pos m) + e ≤ 31)
                  ∧ (∀ s, Prim2SF lam = S754_zero s → fl = 0)).
  { unfold floor_to_int, floor_Z, double_parts in Hfl.
    split; [|split; [|split]].
    - intros H. rewrite H in Hfl. discriminate.
    - intros s H. rewrite H in Hfl. discriminate.
    - intros m e H. rewrite H in Hfl. simpl in Hfl.
      destruct (in_int _) eqn:Ei; [|discriminate]. injection Hfl as Hfl.
      apply in_int_iff in Ei as [_ Ei]. rewrite Hfl in Ei.
      by apply floor_int_mag in Hfl.
    - intros s H. rewrite H in Hfl. simpl in Hfl. by injection Hfl. }
  destruct Hcase as (Hnan & Hinf & Hpos & Hzero).
  fold (capacity_arg lam).
  unfold poisson_distribution.capacity_of. fold (capacity_arg lam).
  destruct (Prim2SF lam) as [s|s| |[] m e] eqn:El;
    try (exfalso; eauto; fail).
  - (* a zero *)
    destruct (capacity_arg_range lam) as (mv & ev & Hv & Hmag); [by rewrite El|].
    apply double_parts_pos in Hv as [Ht Hf].
    pose proof (shiftl_pos_range mv ev 6 25 ltac:(lia) Hmag) as [Hlo Hhi].
    change (2 ^ (6 - 1)) with 32 in Hlo. change (2 ^ 25) with 33554432 in Hhi.
    unfold static_cast_size_t. rewrite Ht. simpl.
    replace ((0 <=? _) && _) with true
      by (symmetry; apply andb_true_iff; rewrite !Z.leb_le; unfold SIZE_MAX; lia).
    simpl. rewrite to_size_t_id by (unfold SIZE_MAX; lia).
    rewrite (Hzero s eq_refl). split; [done|]. split; [lia|]. eauto.
  - (* negative *)
    assert (Prim2SF (capacity_arg lam) = S754_nan) as Hv.
    { rewrite capacity_arg_spec, El. reflexivity. }
    unfold static_cast_size_t, trunc_Z, double_parts. rewrite Hv. simpl.
    rewrite ltb_spec, El. reflexivity.
  - (* positive *)
    destruct (Hpos m e eq_refl) as [Hfl0 Hm].
    destruct (capacity_arg_range lam) as (mv & ev & Hv & Hmag); [by rewrite El|].
    apply double_parts_pos in Hv as [Ht Hf].
    pose proof (shiftl_pos_range mv ev 6 25 ltac:(lia) Hmag) as [Hlo Hhi].
    change (2 ^ (6 - 1)) with 32 in Hlo. change (2 ^ 25) with 33554432 in Hhi.
    unfold static_cast_size_t. rewrite Ht. simpl.
    replace ((0 <=? _) && _) with true
      by (symmetry; apply andb_true_iff; rewrite !Z.leb_le; unfold SIZE_MAX; lia).
    simpl. rewrite to_size_t_id by (unfold SIZE_MAX; lia).
    split; [done|]. split; [lia|]. eauto.
Qed.

(** ** The scans and the compaction *)

Section scans.
Variables log exp lgamma : float → float.
Variable lam : float.
Variable left : Z.

Local Abbreviation pmf := (log_space_pmf log exp lgamma lam).
Local Abbreviation blw := (below log exp lgamma lam).
Local Abbreviation pp := (poisson_distribution.pp exp lgamma lam (log lam) left).
Local Abbreviation scan_down := (poisson_distribution.scan_down exp lgamma lam (log lam) left).
Local Abbreviation scan_up := (poisson_distribution.scan_up exp lgamma lam (log lam) left).

Lemma pp_Some i v :
  pp i = Some v ↔ v = pmf (left + i) ∧ INT_MIN ≤ left + i ≤ INT_MAX.
Proof.
  unfold poisson_distribution.pp, log_space_pmf.
  destruct (int_add left i) as [xi|] eqn:E; simpl.
  - apply int_add_Some in E as [-> E]. split; [intros [= <-]; auto | intros [-> _]; auto].
  - split; [discriminate |]. intros [_ H].
    assert (int_add left i = Some (left + i)) by (apply int_add_Some; auto). congruence.
Qed.

(** The downward scan entered at [i = k - 1]: it stops at the first [i]
    below the threshold with [lo = i + 1], has stored every probability
    above it, and leaves the rest of the array as it was. *)
Lemma scan_down_spec k : ∀ (p p1 : list float) lo,
  scan_down k p = Some (p1, lo) →
  length p1 = length p
  ∧ 0 ≤ lo ≤ Z.of_nat k
  ∧ (0 < lo → blw (left + (lo - 1)) = true)
  ∧ (∀ i, lo ≤ i < Z.of_nat k →
       p1 !! Z.to_nat i = Some (pmf (left + i))
       ∧ blw (left + i) = false)
  ∧ (∀ j : nat, (Z.of_nat j < lo ∨ Z.of_nat k ≤ Z.of_nat j) → p1 !! j = p !! j).
Proof.
  induction k as [|k IH]; intros p p1 lo; simpl.
  - intros [= <- <-]. repeat split; auto; lia.
  - destruct (pp (Z.of_nat k)) as [v|] eqn:Ev; simpl; [|discriminate].
    apply pp_Some in Ev as [-> Hr].
    destruct (_ <? _)%float eqn:Eb.
    + destruct (int_add (Z.of_nat k) 1) as [l|] eqn:El; simpl; [|discriminate].
      apply int_add_Some in El as [-> _]. intros [= <- <-].
      split; [done|]. split; [lia|]. split.
      { intros _. replace (Z.of_nat k + 1 - 1) with (Z.of_nat k) by lia. exact Eb. }
      split; [intros i Hi; lia | done].
    + destruct (vset p (Z.of_nat k) _) as [p'|] eqn:Es; simpl; [|discriminate].
      apply vset_Some in Es as [Hk ->]. rewrite Nat2Z.id. intros H.
      apply IH in H as (Hlen & Hlo & Hb & Hw & Hf).
      rewrite length_insert in Hlen.
      split; [done|]. split; [lia|]. split; [done|]. split.
      * intros i Hi. destruct (decide (i = Z.of_nat k)) as [->|Hne].
        -- rewrite Nat2Z.id. split; [|exact Eb].
           rewrite Hf by lia. apply list_lookup_insert_eq. lia.
        -- apply Hw. lia.
      * intros j Hj. rewrite Hf by lia.
        apply list_lookup_insert_ne. lia.
Qed.

(** The upward scan entered at [i] with [n] iterations left: either it
    runs to the end and returns [hi0], or it stops at the first index
    below the threshold with [hi] one less; the probabilities up to [hi]
    are stored. *)
Lemma scan_up_spec hi0 n : ∀ i (p p2 : list float) hi,
  0 ≤ i →
  scan_up hi0 n i p = Some (p2, hi) →
  length p2 = length p
  ∧ ((hi = hi0 ∧ ∀ j, i ≤ j < i + Z.of_nat n → blw (left + j) = false)
     ∨ (i - 1 ≤ hi < i + Z.of_nat n - 1 ∧ blw (left + (hi + 1)) = true
        ∧ ∀ j, i ≤ j ≤ hi → blw (left + j) = false))
  ∧ (∀ j, i ≤ j < i + Z.of_nat n → j ≤ hi →
       p2 !! Z.to_nat j = Some (pmf (left + j))
       ∧ blw (left + j) = false)
  ∧ (∀ j : nat, Z.of_nat j < i → p2 !! j = p !! j).
Proof.
  induction n as [|n IH]; intros i p p2 hi Hi; simpl.
  - intros [= <- <-]. split; [done|]. split; [left; split; [done | intros; lia]|].
    split; [intros; lia | done].
  - destruct (pp i) as [v|] eqn:Ev; simpl; [|discriminate].
    apply pp_Some in Ev as [-> Hr].
    destruct (_ <? _)%float eqn:Eb.
    + destruct (int_sub i 1) as [h|] eqn:Eh; simpl; [|discriminate].
      apply int_sub_Some in Eh as [-> _]. intros [= <- <-].
      split; [done|]. split.
      { right. split; [lia|]. split; [|intros; lia].
        replace (i - 1 + 1) with i by lia. exact Eb. }
      split; [intros; lia | done].
    + destruct (vset p i _) as [p'|] eqn:Es; simpl; [|discriminate].
      apply vset_Some in Es as [Hk ->].
      destruct (int_add i 1) as [i'|] eqn:Ei; simpl; [|discriminate].
      apply int_add_Some in Ei as [-> _]. intros H.
      apply IH in H as (Hlen & Hcase & Hw & Hf); [|lia].
      rewrite length_insert in Hlen.
      assert (Hi0 : p2 !! Z.to_nat i = Some (pmf (left + i))).
      { rewrite Hf by lia. apply list_lookup_insert_eq. lia. }
      split; [done|]. split; [|split].
      * destruct Hcase as [[-> Hall] | (Hh & Hbl & Hall)].
        -- left. split; [done|]. intros j Hj.
           destruct (decide (j = i)) as [->|]; [exact Eb | apply Hall; lia].
        -- right. split; [lia|]. split; [done|]. intros j Hj.
           destruct (decide (j = i)) as [->|]; [exact Eb | apply Hall; lia].
      * intros j Hj Hjh. destruct (decide (j = i)) as [->|]; [done|].
        apply Hw; lia.
      * intros j Hj. rewrite Hf by lia. apply list_lookup_insert_ne. lia.
Qed.

(** The compaction entered at [i] with [n] iterations left: the entries
    from [i] on move down by [lo]; what lies below [i - lo] stays. *)
Lemma compact_spec lo n : ∀ i (p p3 : list float),
  0 ≤ lo ≤ i →
  poisson_distribution.compact lo n i p = Some p3 →
  length p3 = length p
  ∧ (∀ j, i - lo ≤ j < i - lo + Z.of_nat n →
       p3 !! Z.to_nat j = p !! Z.to_nat (j + lo))
  ∧ (∀ j : nat, Z.of_nat j < i - lo → p3 !! j = p !! j)
  ∧ (n ≠ O → i + Z.of_nat n ≤ INT_MAX ∧ i + Z.of_nat n ≤ Z.of_nat (length p)).
Proof.
  induction n as [|n IH]; intros i p p3 Hi; simpl.
  - intros [= <-]. split; [done|]. split; [intros; lia|]. split; done.
  - destruct (vget p i) as [v|] eqn:Ev; simpl; [|discriminate].
    apply vget_Some in Ev as [_ Ev].
    destruct (int_sub i lo) as [j0|] eqn:Ej; simpl; [|discriminate].
    apply int_sub_Some in Ej as [-> _].
    destruct (vset p (i - lo) v) as [p'|] eqn:Es; simpl; [|discriminate].
    apply vset_Some in Es as [Hk ->].
    destruct (int_add i 1) as [i'|] eqn:Ei; simpl; [|discriminate].
    apply int_add_Some in Ei as [-> Hmax]. intros H.
    apply IH in H as (Hlen & Hw & Hf & Hn); [|lia].
    rewrite length_insert in Hlen, Hn.
    assert (Hil : i < Z.of_nat (length p)).
    { apply lookup_lt_Some in Ev. lia. }
    split; [done|]. split; [|split].
    + intros j Hj. destruct (decide (j = i - lo)) as [->|Hne].
      * rewrite Hf by lia. replace (i - lo + lo) with i by lia.
        rewrite Ev. apply list_lookup_insert_eq. lia.
      * rewrite Hw by lia. apply list_lookup_insert_ne. lia.
    + intros j Hj. rewrite Hf by lia. apply list_lookup_insert_ne. lia.
    + intros _. destruct n as [|n']; [lia|].
      destruct Hn as [Hn1 Hn2]; [done|]. lia.
Qed.

(** The scans and the compaction have defined behaviour when their
    indices stay inside the array and [left + i] inside [int]. *)
Lemma scan_down_defined k : ∀ p : list float,
  (k ≤ length p)%nat →
  Z.of_nat k ≤ INT_MAX →
  (∀ i, 0 ≤ i < Z.of_nat k → INT_MIN ≤ left + i ≤ INT_MAX) →
  is_Some (scan_down k p).
Proof.
  induction k as [|k IH]; intros p Hlen Hk Hr; simpl; [eauto|].
  assert (Hpp : pp (Z.of_nat k) = Some (pmf (left + Z.of_nat k))).
  { apply pp_Some. split; [done | apply Hr; lia]. }
  rewrite Hpp. simpl. destruct (_ <? _)%float.
  - assert (int_add (Z.of_nat k) 1 = Some (Z.of_nat k + 1)) as ->.
    { apply int_add_Some. unfold INT_MIN. split; [done | lia]. }
    simpl. eauto.
  - destruct (vset p (Z.of_nat k) (pmf (left + Z.of_nat k))) as [p'|] eqn:Es.
    + simpl. apply vset_Some in Es as [_ ->].
      apply IH; [rewrite length_insert; lia | lia | intros; apply Hr; lia].
    + exfalso. assert (is_Some (vset p (Z.of_nat k) (pmf (left + Z.of_nat k)))) as [? He].
      { eexists. apply vset_Some. split; [lia | done]. }
      congruence.
Qed.

Lemma scan_up_defined hi0 n : ∀ i (p : list float),
  0 ≤ i →
  i + Z.of_nat n ≤ Z.of_nat (length p) →
  i + Z.of_nat n ≤ INT_MAX →
  (∀ j, i ≤ j < i + Z.of_nat n → INT_MIN ≤ left + j ≤ INT_MAX) →
  is_Some (scan_up hi0 n i p).
Proof.
  induction n as [|n IH]; intros i p Hi Hlen Hmax Hr; simpl; [eauto|].
  assert (Hpp : pp i = Some (pmf (left + i))).
  { apply pp_Some. split; [done | apply Hr; lia]. }
  rewrite Hpp. simpl. destruct (_ <? _)%float.
  - assert (int_sub i 1 = Some (i - 1)) as ->.
    { apply int_sub_Some. unfold INT_MIN. split; [done | lia]. }
    simpl. eauto.
  - assert (vset p i (pmf (left + i))
            = Some (<[Z.to_nat i := pmf (left + i)]> p)) as ->.
    { apply vset_Some. split; [lia | done]. }
    simpl.
    assert (int_add i 1 = Some (i + 1)) as ->.
    { apply int_add_Some. unfold INT_MIN. split; [done | lia]. }
    simpl. apply IH; [lia | rewrite length_insert; lia | lia | intros; apply Hr; lia].
Qed.

Lemma compact_defined lo n : ∀ i (p : list float),
  0 ≤ lo ≤ i →
  i + Z.of_nat n ≤ Z.of_nat (length p) →
  i + Z.of_nat n ≤ INT_MAX →
  is_Some (poisson_distribution.compact lo n i p).
Proof.
  induction n as [|n IH]; intros i p Hi Hlen Hmax; simpl; [eauto|].
  destruct (lookup_lt_is_Some_2 p (Z.to_nat i) ltac:(lia)) as [v Hv].
  assert (vget p i = Some v) as -> by (apply vget_Some; split; [lia | done]).
  simpl.
  assert (int_sub i lo = Some (i - lo)) as ->.
  { apply int_sub_Some. unfold INT_MIN. split; [done | lia]. }
  simpl.
  assert (vset p (i - lo) v = Some (<[Z.to_nat (i - lo) := v]> p)) as ->.
  { apply vset_Some. split; [lia | done]. }
  simpl.
  assert (int_add i 1 = Some (i + 1)) as ->.
  { apply int_add_Some. unfold INT_MIN. split; [done | lia]. }
  simpl. apply IH; [lia | rewrite length_insert; lia | lia].
Qed.

End scans.

(** ** [calculate_probabilities] *)

Section window.
Variables log exp lgamma : float → float.
Variable lam : float.

Local Abbreviation pmf := (log_space_pmf log exp lgamma lam).
Local Abbreviation below := (below log exp lgamma lam).
Local Abbreviation cutoff_lo := (cutoff_lo log exp lgamma lam).
Local Abbreviation cutoff_hi := (cutoff_hi log exp lgamma lam).

Lemma calculate_probabilities_spec (p : list float) c w :
  1 ≤ c ≤ INT_MAX →
  length p = Z.to_nat c →
  poisson_distribution.calculate_probabilities log exp lgamma p c lam = Some w →
  ∃ fl lo hi,
    floor_to_int lam = Some fl
    ∧ cutoff_lo (poisson_distribution.left_of fl c) (c / 2) lo
    ∧ cutoff_hi (poisson_distribution.left_of fl c) (c / 2) c hi
    ∧ 0 ≤ lo ≤ c / 2 + 1 ∧ c / 2 ≤ hi ≤ c - 1
    ∧ size w = hi - lo + 1
    ∧ offset w = poisson_distribution.left_of fl c + lo
    ∧ length (probabilities w) = length p
    ∧ ∀ j, 0 ≤ j < size w →
        probabilities w !! Z.to_nat j = Some (pmf (offset w + j))
        ∧ below (offset w + j) = false.
Proof.
  intros Hc Hlen. unfold poisson_distribution.calculate_probabilities.
  destruct (floor_to_int lam) as [fl|]; simpl; [|discriminate].
  set (left := poisson_distribution.left_of fl c).
  assert (Hdiv : 0 ≤ c / 2 ∧ 2 * (c / 2) ≤ c).
  { split; [apply Z.div_pos; lia | apply Z.mul_div_le; lia]. }
  assert (HIM : INT_MAX = 2147483647) by reflexivity.
  assert (HIm : INT_MIN = -2147483648) by reflexivity.
  assert (HSM : SIZE_MAX = 18446744073709551615) by reflexivity.
  rewrite (to_int_id (c / 2)) by lia.
  rewrite (to_size_t_id (c - 1)) by lia.
  rewrite (to_int_id (c - 1)) by lia.
  rewrite (to_size_t_id (c / 2 + 1)) by lia.
  rewrite (to_int_id (c / 2 + 1)) by lia.
  rewrite (to_int_id c) by lia.
  destruct (poisson_distribution.scan_down _ _ _ _ _ _ _) as [[p1 lo]|] eqn:Ed;
    simpl; [|discriminate].
  apply scan_down_spec in Ed as (Hl1 & Hlo & Hlob & Hw1 & Hf1).
  rewrite Z2Nat.id in Hlo, Hw1, Hf1 by lia.
  destruct (poisson_distribution.scan_up _ _ _ _ _ _ _ _ _) as [[p2 hi]|] eqn:Eu;
    simpl; [|discriminate].
  apply scan_up_spec in Eu as (Hl2 & Hcase & Hw2 & Hf2); [|lia].
  rewrite Z2Nat.id in Hcase, Hw2 by lia.
  assert (Hhi : c / 2 ≤ hi ≤ c - 1).
  { destruct Hcase as [[-> _] | (Hh & _)]; lia. }
  destruct (poisson_distribution.compact _ _ _ _) as [p3|] eqn:Ec;
    simpl; [|discriminate].
  apply compact_spec in Ec as (Hl3 & Hw3 & _); [|lia].
  rewrite Z2Nat.id in Hw3 by lia.
  destruct (int_sub hi lo) as [d|] eqn:E1; simpl; [|discriminate].
  apply int_sub_Some in E1 as [-> _].
  destruct (int_add (hi - lo) 1) as [sz|] eqn:E2; simpl; [|discriminate].
  apply int_add_Some in E2 as [-> _].
  destruct (int_add left lo) as [off|] eqn:E3; simpl; [|discriminate].
  apply int_add_Some in E3 as [-> _].
  intros [= <-]. simpl.
  exists fl, lo, hi. split; [done|]. split; [|split].
  - destruct (decide (lo = 0)) as [->|Hne].
    + left. split; [done|]. intros i Hi. apply Hw1. lia.
    + right. exists (lo - 1). split; [lia|]. split; [lia|]. split; [apply Hlob; lia|].
      intros i Hi. apply Hw1. lia.
  - destruct Hcase as [[-> Hall] | (Hh & Hb & Hall)].
    + left. split; [done|]. intros i Hi. apply Hall. lia.
    + right. exists (hi + 1). split; [lia|]. split; [lia|]. split; [done|].
      intros i Hi. apply Hall. lia.
  - split; [lia|]. split; [done|]. split; [done|]. split; [done|].
    split; [congruence|].
    intros j Hj. rewrite Hw3 by lia.
    replace (left + lo + j) with (left + (j + lo)) by lia.
    destruct (decide (j + lo ≤ c / 2)) as [Hle|Hgt].
    + rewrite Hf2 by lia. apply Hw1. lia.
    + apply Hw2; lia.
Qed.

Lemma calculate_probabilities_defined (p : list float) c fl :
  1 ≤ c ≤ 2 ^ 26 →
  length p = Z.to_nat c →
  floor_to_int lam = Some fl →
  0 ≤ fl ≤ INT_MAX - 2 ^ 26 →
  is_Some (poisson_distribution.calculate_probabilities log exp lgamma p c lam).
Proof.
  intros Hc Hlen Hfl Hr. unfold poisson_distribution.calculate_probabilities.
  rewrite Hfl. simpl.
  rewrite left_of_exact by lia.
  assert (Hdiv : 0 ≤ c / 2 ∧ 2 * (c / 2) ≤ c).
  { split; [apply Z.div_pos; lia | apply Z.mul_div_le; lia]. }
  assert (HIM : INT_MAX = 2147483647) by reflexivity.
  assert (HIm : INT_MIN = -2147483648) by reflexivity.
  assert (HSM : SIZE_MAX = 18446744073709551615) by reflexivity.
  rewrite (to_int_id (c / 2)) by lia.
  rewrite (to_size_t_id (c - 1)) by lia.
  rewrite (to_int_id (c - 1)) by lia.
  rewrite (to_size_t_id (c / 2 + 1)) by lia.
  rewrite (to_int_id (c / 2 + 1)) by lia.
  rewrite (to_int_id c) by lia.
  destruct (scan_down_defined log exp lgamma lam (fl - c / 2) (Z.to_nat (c / 2 + 1)) p)
    as [[p1 lo] Ed]; [lia | lia | intros; lia |].
  rewrite Ed. simpl.
  apply scan_down_spec in Ed as (Hl1 & Hlo & _).
  rewrite Z2Nat.id in Hlo by lia.
  destruct (scan_up_defined log exp lgamma lam (fl - c / 2) (c - 1)
              (Z.to_nat (c - (c / 2 + 1))) (c / 2 + 1) p1)
    as [[p2 hi] Eu]; [lia | lia | lia | intros; lia |].
  rewrite Eu. simpl.
  apply scan_up_spec in Eu as (Hl2 & Hcase & _); [|lia].
  rewrite Z2Nat.id in Hcase by lia.
  assert (Hhi : c / 2 ≤ hi ≤ c - 1).
  { destruct Hcase as [[-> _] | (Hh & _)]; lia. }
  destruct (compact_defined lo (Z.to_nat (hi - lo + 1)) lo p2)
    as [p3 Ec]; [lia | lia | lia |].
  rewrite Ec. simpl.
  assert (int_sub hi lo = Some (hi - lo)) as -> by (apply int_sub_Some; lia).
  simpl.
  assert (int_add (hi - lo) 1 = Some (hi - lo + 1)) as -> by (apply int_add_Some; lia).
  simpl.
  assert (int_add (fl - c / 2) lo = Some (fl - c / 2 + lo)) as ->
    by (apply int_add_Some; lia).
  simpl. eauto.
Qed.

End window.

(** ** [set_lambda]: the window *)

Section set_lambda.
Variables log exp lgamma : float → float.

Local Abbreviation pmf := (log_space_pmf log exp lgamma).
Local Abbreviation below := (below log exp lgamma).
Local Abbreviation set_lambda_window :=
  (poisson_distribution.set_lambda_window log exp lgamma).

(** Every window the builder returns, described by its capacity, the
    floor of the rate and the two cutoffs. *)
Lemma set_lambda_window_spec lam w :
  set_lambda_window lam = Some w →
  ∃ c fl lo hi,
    poisson_distribution.capacity_of lam = Some c
    ∧ floor_to_int lam = Some fl
    ∧ 0 ≤ fl ∧ 64 ≤ c ≤ 2 ^ 26
    ∧ cutoff_lo log exp lgamma lam (fl - c / 2) (c / 2) lo
    ∧ cutoff_hi log exp lgamma lam (fl - c / 2) (c / 2) c hi
    ∧ 0 ≤ lo ≤ c / 2 + 1 ∧ c / 2 ≤ hi ≤ c - 1
    ∧ size w = hi - lo + 1
    ∧ offset w = fl - c / 2 + lo
    ∧ length (probabilities w) = Z.to_nat c
    ∧ ∀ j, 0 ≤ j < size w →
        probabilities w !! Z.to_nat j = Some (pmf lam (offset w + j))
        ∧ below lam (offset w + j) = false.
Proof.
  unfold poisson_distribution.set_lambda_window. intros H.
  destruct (poisson_distribution.capacity_of lam) as [c|] eqn:Ec; [|discriminate].
  simpl in H.
  assert (Hfl : is_Some (floor_to_int lam)).
  { unfold poisson_distribution.calculate_probabilities in H.
    destruct (floor_to_int lam); [eauto | discriminate]. }
  destruct Hfl as [fl Hfl].
  pose proof (capacity_of_supported lam fl Hfl) as Hc. rewrite Ec in Hc.
  destruct Hc as (Hfl0 & Hcr & _).
  assert (HIM : INT_MAX = 2147483647) by reflexivity.
  apply calculate_probabilities_spec in H; [|lia | by rewrite length_replicate].
  destruct H as (fl' & lo & hi & Hfl' & Hlo & Hhi & Hlor & Hhir & Hs & Ho & Hlen & Hj).
  assert (fl' = fl) as -> by congruence.
  pose proof (floor_to_int_le lam fl Hfl) as [_ ?].
  rewrite left_of_exact in Hlo, Hhi, Ho by lia.
  rewrite length_replicate in Hlen.
  exists c, fl, lo, hi. repeat (split; [done|]). done.
Qed.

Lemma ltb_0_r_false lam : (0 <? lam)%float = true → (lam <? 0)%float = false.
Proof.
  rewrite !ltb_spec. change (Prim2SF 0) with (S754_zero false).
  destruct (Prim2SF lam) as [s|[]| |[] m e]; simpl; done.
Qed.

(** On a supported rate the builder returns a window. *)
Lemma set_lambda_window_defined lam :
  supported_rate lam = true → is_Some (set_lambda_window lam).
Proof.
  unfold supported_rate. intros [Hpos Hfl]%andb_true_iff.
  destruct (floor_to_int lam) as [fl|] eqn:Efl; [|discriminate].
  apply Z.leb_le in Hfl.
  pose proof (capacity_of_supported lam fl Efl) as Hc.
  unfold poisson_distribution.set_lambda_window.
  destruct (poisson_distribution.capacity_of lam) as [c|].
  - destruct Hc as (Hfl0 & Hcr & _). simpl.
    apply (calculate_probabilities_defined _ _ _ _ _ c fl);
      [lia | by rewrite length_replicate | done | lia].
  - apply ltb_0_r_false in Hpos. congruence.
Qed.

(** *** The entries of the window *)

(** C1.  On a supported rate the builder returns a window.  Every window
    it returns holds, at each kept scan position [lo + j], the value
    [exp(x * log(lambda) - lgamma(x + 1) - lambda)] computed at
    [x = left + (lo + j)]; after the compaction this is the entry at index
    [j], for every [j] below [size], and [x] is [offset + j]. *)
Theorem window_entries_are_log_space_pmf lam :
  (supported_rate lam = true → is_Some (set_lambda_window lam))
  ∧ ∀ w, set_lambda_window lam = Some w →
      ∃ c fl lo,
        poisson_distribution.capacity_of lam = Some c
        ∧ floor_to_int lam = Some fl
        ∧ offset w = poisson_distribution.left_of fl c + lo
        ∧ ∀ j, 0 ≤ j < size w →
            probabilities w !! Z.to_nat j
            = Some (pmf lam (poisson_distribution.left_of fl c + (lo + j)))
            ∧ probabilities w !! Z.to_nat j = Some (pmf lam (offset w + j)).
Proof.
  split; [apply set_lambda_window_defined|].
  intros w Hw.
  apply set_lambda_window_spec in Hw
    as (c & fl & lo & hi & Hc & Hfl & Hfl0 & Hcr & _ & _ & _ & _ & _ & Ho & _ & Hp).
  pose proof (floor_to_int_le lam fl Hfl) as Hr.
  exists c, fl, lo. rewrite left_of_exact by lia.
  split; [done|]. split; [done|]. split; [done|].
  intros j Hj. destruct (Hp j Hj) as [He _].
  replace (fl - c / 2 + (lo + j)) with (offset w + j) by lia. done.
Qed.

(** *** The cutoffs and the compaction *)

(** C2.  For every window the builder returns: [lo] is one more than the
    first index, going down from [capacity / 2] to 0, whose probability is
    below [1e-12], and 0 when there is none; [hi] is one less than the
    first such index going up from [capacity / 2 + 1] to [capacity - 1],
    and [capacity - 1] when there is none; the entries computed at
    positions [lo .. hi] start at index 0; [size = hi - lo + 1] and
    [offset = left + lo]. *)
Theorem window_cutoffs_and_compaction lam w :
  set_lambda_window lam = Some w →
  ∃ c fl lo hi,
    poisson_distribution.capacity_of lam = Some c
    ∧ floor_to_int lam = Some fl
    ∧ let left := poisson_distribution.left_of fl c in
      cutoff_lo log exp lgamma lam left (c / 2) lo
      ∧ cutoff_hi log exp lgamma lam left (c / 2) c hi
      ∧ size w = hi - lo + 1
      ∧ offset w = left + lo
      ∧ ∀ j, 0 ≤ j ≤ hi - lo →
          probabilities w !! Z.to_nat j = Some (pmf lam (left + (lo + j))).
Proof.
  intros Hw.
  apply set_lambda_window_spec in Hw
    as (c & fl & lo & hi & Hc & Hfl & Hfl0 & Hcr & Hlo & Hhi & _ & _ & Hs & Ho & _ & Hp).
  pose proof (floor_to_int_le lam fl Hfl) as [_ ?].
  exists c, fl, lo, hi. split; [done|]. split; [done|]. simpl.
  rewrite left_of_exact by lia.
  split; [done|]. split; [done|]. split; [done|]. split; [done|].
  intros j Hj. replace (fl - c / 2 + (lo + j)) with (offset w + j) by lia.
  apply Hp. lia.
Qed.

End set_lambda.

(** ** The capacity and the centre *)

(** C3.  For every positive rate whose floor is an [int], the capacity is
    [2 * floor(16 * (2 + sqrt(lambda)))] and the scan is centred at
    [left = floor(lambda) - capacity / 2]; the conversions of the header
    neither truncate nor wrap there.  At [lambda = 10] the capacity is 164
    and [left] is -72. *)
Theorem capacity_and_left :
  (∀ lam fl,
     (0 <? lam)%float = true →
     floor_to_int lam = Some fl →
     ∃ c, poisson_distribution.capacity_of lam = Some c
          ∧ capacity_formula lam = Some c
          ∧ poisson_distribution.left_of fl c = fl - c / 2)
  ∧ poisson_distribution.capacity_of 10 = Some 164
  ∧ floor_to_int 10 = Some 10
  ∧ poisson_distribution.left_of 10 164 = -72.
Proof.
  split; [|by vm_compute].
  intros lam fl Hpos Hfl.
  pose proof (capacity_of_supported lam fl Hfl) as Hc.
  destruct (poisson_distribution.capacity_of lam) as [c|].
  - destruct Hc as (Hfl0 & Hcr & n & Hn & ->). exists (2 * n).
    split; [done|]. split.
    + unfold capacity_formula. fold (capacity_arg lam). by rewrite Hn.
    + apply left_of_exact; [|lia]. apply floor_to_int_le in Hfl. lia.
  - apply ltb_0_r_false in Hpos. congruence.
Qed.

(** ** The range of the capacity *)

(** For every rate that is not negative and whose floor is an [int], the
    capacity is defined, even and between 64 and [2^26]: the vector has
    room for the centre on both sides and every index fits an [int]. *)
Theorem capacity_is_bounded lam fl :
  floor_to_int lam = Some fl →
  (lam <? 0)%float = false →
  ∃ c, poisson_distribution.capacity_of lam = Some c
       ∧ 64 ≤ c ≤ 2 ^ 26 ∧ c mod 2 = 0 ∧ 0 ≤ fl.
Proof.
  intros Hfl Hneg. pose proof (capacity_of_supported lam fl Hfl) as Hc.
  destruct (poisson_distribution.capacity_of lam) as [c|]; [|congruence].
  destruct Hc as (Hfl0 & Hcr & n & _ & ->). exists (2 * n).
  split; [done|]. split; [done|]. split; [|done].
  rewrite Z.mul_comm. apply Z_mod_mult.
Qed.

(** ** The size of the window *)

Section size.
Variables log exp lgamma : float → float.

(** Every window the builder returns has between 0 and [capacity]
    entries, starts between [left] and one past the floor of the rate, and
    comes in an array that still has [capacity] elements. *)
Theorem window_size_within_capacity lam w :
  poisson_distribution.set_lambda_window log exp lgamma lam = Some w →
  ∃ c fl,
    poisson_distribution.capacity_of lam = Some c
    ∧ floor_to_int lam = Some fl
    ∧ 0 ≤ size w ≤ c
    ∧ poisson_distribution.left_of fl c ≤ offset w ≤ fl + 1
    ∧ length (probabilities w) = Z.to_nat c.
Proof.
  intros Hw.
  apply set_lambda_window_spec in Hw
    as (c & fl & lo & hi & Hc & Hfl & Hfl0 & Hcr & _ & _ & Hlo & Hhi & Hs & Ho & Hl & _).
  pose proof (floor_to_int_le lam fl Hfl) as Hr.
  assert (Hdiv : 0 ≤ c / 2 ∧ 2 * (c / 2) ≤ c).
  { split; [apply Z.div_pos; lia | apply Z.mul_div_le; lia]. }
  exists c, fl. rewrite left_of_exact by lia.
  split; [done|]. split; [done|]. split; [lia|]. split; [lia | done].
Qed.

End size.

(** ** Rates outside the contract *)

Lemma eqb_0_zero lam : (lam =? 0)%float = true → ∃ s, Prim2SF lam = S754_zero s.
Proof.
  rewrite FloatAxioms.eqb_spec. change (Prim2SF 0) with (S754_zero false).
  destruct (Prim2SF lam) as [s|[]| |[] m e]; simpl; try done. eauto.
Qed.

Lemma ltb_0_negative lam :
  (lam <? 0)%float = true →
  Prim2SF lam = S754_infinity true ∨ ∃ m e, Prim2SF lam = S754_finite true m e.
Proof.
  rewrite ltb_spec. change (Prim2SF 0) with (S754_zero false).
  destruct (Prim2SF lam) as [s|[]| |[] m e]; simpl; try done; eauto.
Qed.

(** The capacity of a zero is 64, with the window centred at -32. *)
Lemma capacity_of_zero lam s :
  Prim2SF lam = S754_zero s →
  poisson_distribution.capacity_of lam = Some 64 ∧ floor_to_int lam = Some 0.
Proof.
  intros H. split.
  - assert (Hv : Prim2SF (capacity_arg lam) = S754_finite false 4503599627370496 (-47)).
    { rewrite capacity_arg_spec, H. by destruct s. }
    apply double_parts_pos in Hv as [Ht _].
    unfold poisson_distribution.capacity_of, static_cast_size_t.
    fold (capacity_arg lam). by rewrite Ht.
  - unfold floor_to_int, floor_Z, double_parts. by rewrite H.
Qed.

(** For a negative, infinite or NaN rate the conversion in the capacity
    formula has no value. *)
Lemma capacity_of_undefined lam :
  double_parts lam = None ∨ (lam <? 0)%float = true →
  poisson_distribution.capacity_of lam = None.
Proof.
  intros H.
  assert (Hv : Prim2SF (capacity_arg lam) = S754_nan
               ∨ Prim2SF (capacity_arg lam) = S754_infinity false).
  { rewrite capacity_arg_spec. destruct H as [H|H].
    - unfold double_parts in H.
      destruct (Prim2SF lam) as [s|[]| |[] m e]; try done; auto.
    - apply ltb_0_negative in H as [->|(m & e & ->)]; auto. }
  unfold poisson_distribution.capacity_of, static_cast_size_t, trunc_Z, double_parts.
  fold (capacity_arg lam). by destruct Hv as [-> | ->].
Qed.

Lemma SFcompare_antisym x y : SFcompare y x = CompOpp <$> SFcompare x y.
Proof.
  destruct x as [sx|sx| |sx mx ex], y as [sy|sy| |sy my ey]; simpl;
    try reflexivity; try (by destruct sx); try (by destruct sy);
    try (by destruct sx, sy).
  destruct sx, sy; simpl; try reflexivity; f_equal;
    rewrite (Z.compare_antisym ex ey); destruct (ex ?= ey); simpl; try reflexivity.
  - by rewrite (Pos.compare_cont_antisym mx my Eq).
  - by rewrite (Pos.compare_cont_antisym mx my Eq).
Qed.

(** A double that is not below [y] and is not a NaN is at least [y]. *)
Lemma not_ltb_leb x y :
  (x <? y)%float = false → (x =? x)%float = true → (y =? y)%float = true →
  (y <=? x)%float = true.
Proof.
  rewrite ltb_spec, leb_spec, !FloatAxioms.eqb_spec.
  unfold SFltb, SFleb, SFeqb. rewrite (SFcompare_antisym (Prim2SF x) (Prim2SF y)).
  intros Hlt Hx Hy.
  destruct (SFcompare (Prim2SF x) (Prim2SF y)) as [[]|] eqn:Ec; simpl; try done.
  exfalso.
  destruct (Prim2SF x) as [sx|sx| |sx mx ex], (Prim2SF y) as [sy|sy| |sy my ey];
    simpl in *; done.
Qed.

Section threshold.
Variables log exp lgamma : float → float.

Local Abbreviation set_lambda_window :=
  (poisson_distribution.set_lambda_window log exp lgamma).

(** C8, as the code has it.  Every entry of a returned window, at an index
    below [size], passed the threshold test: [pp < 1e-12] is false for it.
    It is therefore at least [1e-12] unless it is a NaN, for which every
    comparison is false. *)
Theorem window_entries_pass_threshold lam w :
  set_lambda_window lam = Some w →
  ∀ j, 0 ≤ j < size w →
    ∃ e, probabilities w !! Z.to_nat j = Some e
         ∧ (e <? poisson_distribution.p_epsilon)%float = false
         ∧ ((e =? e)%float = true →
            (poisson_distribution.p_epsilon <=? e)%float = true).
Proof.
  intros Hw j Hj.
  apply set_lambda_window_spec in Hw
    as (c & fl & lo & hi & _ & _ & _ & _ & _ & _ & _ & _ & _ & _ & _ & Hp).
  destruct (Hp j Hj) as [He Hb].
  eexists. split; [exact He|]. split; [exact Hb|].
  intros Hn. by apply not_ltb_leb.
Qed.

(** C10, as the code has it.  The builder never inspects the rate.  For a
    zero of either sign the formulas apply as they stand: the capacity is
    64, [left] is -32 and a window of at most 64 entries comes back.  For a
    negative, infinite or NaN rate the value of the capacity formula is
    NaN or infinite and its conversion to [size_t] is undefined: there is
    no window. *)
Theorem rate_is_not_validated lam :
  ((lam =? 0)%float = true →
     ∃ w, set_lambda_window lam = Some w
          ∧ poisson_distribution.capacity_of lam = Some 64
          ∧ floor_to_int lam = Some 0
          ∧ poisson_distribution.left_of 0 64 = -32
          ∧ 0 ≤ size w ≤ 64)
  ∧ (double_parts lam = None ∨ (lam <? 0)%float = true →
       poisson_distribution.capacity_of lam = None
       ∧ set_lambda_window lam = None).
Proof.
  split.
  - intros [s Hs]%eqb_0_zero.
    destruct (capacity_of_zero lam s Hs) as [Hc Hfl].
    assert (Hd : is_Some (set_lambda_window lam)).
    { unfold poisson_distribution.set_lambda_window. rewrite Hc. simpl.
      by apply (calculate_probabilities_defined _ _ _ _ _ 64 0). }
    destruct Hd as [w Hw]. exists w.
    split; [done|]. split; [done|]. split; [done|]. split; [done|].
    apply set_lambda_window_spec in Hw
      as (c & fl & lo & hi & Hc' & _ & _ & _ & _ & _ & Hlo & Hhi & Hsz & _).
    assert (c = 64) as -> by congruence.
    change (64 / 2) with 32 in *. lia.
  - intros H. pose proof (capacity_of_undefined lam H) as Hc.
    split; [done|]. unfold poisson_distribution.set_lambda_window. by rewrite Hc.
Qed.

End threshold.

(** ** The cache *)

Lemma eqb_refl_of_parts x : is_Some (double_parts x) → (x =? x)%float = true.
Proof.
  rewrite FloatAxioms.eqb_spec. unfold double_parts, SFeqb.
  destruct (Prim2SF x) as [s|s| |s m e]; simpl; intros [? H]; try done.
  rewrite Z.compare_refl, Pos.compare_cont_refl. by destruct s.
Qed.

Section cache.
Variables log exp lgamma : float → float.

Local Abbreviation set_lambda :=
  (poisson_distribution_manager.set_lambda log exp lgamma).
Local Abbreviation build :=
  (poisson_distribution.set_lambda log exp lgamma).

(** A rate the builder accepts is not a NaN. *)
Lemma build_Some_not_nan lam d h r : build lam d h = Some r → (lam =? lam)%float = true.
Proof.
  unfold poisson_distribution.set_lambda, poisson_distribution.set_lambda_window.
  intros H. apply eqb_refl_of_parts.
  destruct (double_parts lam) eqn:E; [eauto|].
  rewrite (capacity_of_undefined lam) in H by auto. discriminate.
Qed.

(** C5.  [set_lambda] with a value equal to the stored rate, by the
    floating-point comparison with no tolerance, changes nothing: neither
    the manager, with its [size], [offset] and rate, nor the device tables.
    With a different value it stores the new rate and installs what the
    builder returns.  After a call the stored rate equals the value given,
    so a second call with the same value changes nothing. *)
Theorem set_lambda_same_rate_is_noop new_lambda m h :
  ((lambda m =? new_lambda)%float = true → set_lambda new_lambda m h = Some (m, h))
  ∧ ((lambda m =? new_lambda)%float = false →
       set_lambda new_lambda m h
       = '(d, h') ← build new_lambda (dis m) h; Some (Manager d new_lambda, h'))
  ∧ (∀ m' h', set_lambda new_lambda m h = Some (m', h') →
       (lambda m' =? new_lambda)%float = true
       ∧ set_lambda new_lambda m' h' = Some (m', h')).
Proof.
  unfold poisson_distribution_manager.set_lambda.
  split; [by intros -> |]. split; [by intros -> |].
  intros m' h'. destruct (lambda m =? new_lambda)%float eqn:E; simpl.
  - intros [= <- <-]. by rewrite E.
  - destruct (build new_lambda (dis m) h) as [[d h1]|] eqn:Eb; simpl; [|discriminate].
    intros [= <- <-]. simpl.
    by rewrite (build_Some_not_nan _ _ _ _ Eb).
Qed.

(** C7.  Move construction and move assignment hand the distribution,
    handle included, to the destination and leave the source with the
    empty distribution: destroying the source releases nothing, so a
    structure the destination received is still allocated afterwards.
    Had the source kept its handle, its destructor would have released
    that structure. *)
Theorem move_clears_source_handle this other h :
  let '(new, other') := poisson_distribution_manager.move_construct other in
  let '(this', other'') := poisson_distribution_manager.move_assign this other in
  dis new = dis other ∧ dis this' = dis other
  ∧ dis other' = empty_distribution ∧ dis other'' = empty_distribution
  ∧ dis_table (dis other') = None ∧ dis_table (dis other'') = None
  ∧ poisson_distribution_manager.destroy other' h = h
  ∧ poisson_distribution_manager.destroy other'' h = h
  ∧ ∀ a, dis_table (dis other) = Some a →
      dis_table (dis new) = Some a ∧ dis_table (dis this') = Some a
      ∧ poisson_distribution_manager.destroy other' h !! a = h !! a
      ∧ poisson_distribution_manager.destroy other'' h !! a = h !! a
      ∧ poisson_distribution_manager.destroy other h !! a = None.
Proof.
  simpl. do 8 (split; [done|]). intros a Ha. do 4 (split; [done|]).
  unfold poisson_distribution_manager.destroy, deallocate. rewrite Ha. simpl.
  apply lookup_delete_eq.
Qed.

(** The rate a manager stores is never a NaN: it is 0.0 at first, a
    rate the builder accepted afterwards, and moves copy it. *)
Lemma reachable_rate_not_nan m :
  poisson_distribution_manager.reachable log exp lgamma m →
  (lambda m =? lambda m)%float = true.
Proof.
  induction 1 as [ | new m h m' h' _ IH Hs | other new other' _ IH Hm
                 | other new other' _ IH Hm
                 | this other this' other' _ IHt _ IHo Hm
                 | this other this' other' _ IHt _ IHo Hm | this _ IH ].
  - reflexivity.
  - unfold poisson_distribution_manager.set_lambda in Hs.
    destruct (lambda m =? new)%float eqn:E; simpl in Hs.
    + by injection Hs as <- <-.
    + destruct (build new (dis m) h) as [[d h1]|] eqn:Eb; simpl in Hs; [|discriminate].
      injection Hs as <- <-. simpl. exact (build_Some_not_nan _ _ _ _ Eb).
  - by injection Hm as <- <-.
  - by injection Hm as <- <-.
  - by injection Hm as <- <-.
  - by injection Hm as <- <-.
  - exact IH.
Qed.

(** C9.  A move leaves the rate stored in the source as it was and the
    source without a structure; [set_lambda] on the source with that rate
    is then the no-op of an unchanged rate, and the source still has no
    structure. *)
Theorem moved_from_keeps_rate this other h :
  poisson_distribution_manager.reachable log exp lgamma other →
  let '(_, other') := poisson_distribution_manager.move_construct other in
  let '(_, other'') := poisson_distribution_manager.move_assign this other in
  lambda other' = lambda other ∧ lambda other'' = lambda other
  ∧ set_lambda (lambda other) other' h = Some (other', h)
  ∧ set_lambda (lambda other) other'' h = Some (other'', h)
  ∧ dis_table (dis other') = None ∧ dis_table (dis other'') = None.
Proof.
  intros Hn%reachable_rate_not_nan. simpl.
  unfold poisson_distribution_manager.set_lambda. simpl.
  rewrite Hn. simpl. repeat split; done.
Qed.

End cache.

(** *** Move assignment onto a manager that owns a structure *)

(** A structure the destination of a move assignment held before is not
    released by the assignment, nor by the destructors that run later. *)
Lemma move_assign_keeps_old_allocation this other (h : gmap nat (list float)) a :
  dis_table (dis this) = Some a →
  dis_table (dis other) ≠ Some a →
  let '(this', other') := poisson_distribution_manager.move_assign this other in
  dis_table (dis this') ≠ Some a
  ∧ dis_table (dis other') = None
  ∧ poisson_distribution_manager.destroy other'
      (poisson_distribution_manager.destroy this' h) !! a = h !! a.
Proof.
  intros Ha Hne. simpl. split; [done|]. split; [done|].
  unfold poisson_distribution_manager.destroy, deallocate. simpl.
  destruct (dis_table (dis other)) as [b|]; simpl; [|done].
  apply lookup_delete_ne. congruence.
Qed.

(** Nor is the structure of a manager assigned to itself. *)
Lemma move_assign_self_keeps_allocation this (h : gmap nat (list float)) a :
  dis_table (dis this) = Some a →
  poisson_distribution_manager.destroy
    (poisson_distribution_manager.move_assign_self this) h !! a = h !! a.
Proof. done. Qed.

(** Where the replacement goes through [set_lambda], the structure held
    before is released and one structure is allocated in its place. *)
Lemma set_lambda_replaces_structure log exp lgamma lam d (h : gmap nat (list float)) d' h' a :
  poisson_distribution.set_lambda log exp lgamma lam d h = Some (d', h') →
  dis_table d = Some a →
  ∃ a' t, dis_table d' = Some a' ∧ (a' ∉ dom (delete a h))
          ∧ h' = <[a' := t]> (delete a h).
Proof.
  unfold poisson_distribution.set_lambda, init, deallocate.
  destruct (poisson_distribution.set_lambda_window _ _ _ _) as [w|]; [|discriminate].
  simpl. intros H Ha. rewrite Ha in H. injection H as <- <-.
  eexists _, _. split; [done|]. split; [apply is_fresh | done].
Qed.

(** C6 fails on move assignment.  Two caches on one device own the
    structures 0 and 1.  Assigning the second to the first leaves
    structure 0 allocated and owned by neither cache; after both caches
    are destroyed it is the one structure still allocated. *)
Theorem move_assign_leaks_destination_structure :
  ∃ m1 m2 h,
    two_caches = Some (m1, m2, h)
    ∧ dis_table (dis m1) = Some 0%nat
    ∧ dis_table (dis m2) = Some 1%nat
    ∧ dom h = {[0%nat; 1%nat]}
    ∧ let '(m1', m2') := poisson_distribution_manager.move_assign m1 m2 in
      dis_table (dis m1') = Some 1%nat
      ∧ dis_table (dis m2') = None
      ∧ poisson_distribution_manager.destroy m2'
          (poisson_distribution_manager.destroy m1' h) !! 0%nat = h !! 0%nat
      ∧ dom (poisson_distribution_manager.destroy m2'
               (poisson_distribution_manager.destroy m1' h)) = {[0%nat]}.
Proof.
  destruct two_caches as [[[m1 m2] h]|] eqn:E; [|by vm_compute in E].
  vm_compute in E. injection E as <- <- <-.
  eexists _, _, _. split; [reflexivity|].
  split; [reflexivity|]. split; [reflexivity|].
  split; [by vm_compute|].
  simpl. split; [reflexivity|]. split; [reflexivity|].
  split; [by vm_compute | by vm_compute].
Qed.

(** ** More on the window *)

Section floor.
Variables log exp lgamma : float → float.

Local Abbreviation below := (below log exp lgamma).
Local Abbreviation set_lambda_window :=
  (poisson_distribution.set_lambda_window log exp lgamma).

(** The floor of the rate is in the window exactly when its probability
    passes the threshold test; otherwise the window starts one above it.
    The window is empty exactly when the probabilities at the floor and at
    the next integer are both below the threshold. *)
Theorem window_holds_floor_iff_not_below lam w :
  set_lambda_window lam = Some w →
  ∃ fl, floor_to_int lam = Some fl
    ∧ (below lam fl = false ↔ offset w ≤ fl < offset w + size w)
    ∧ (below lam fl = true ↔ offset w = fl + 1)
    ∧ (size w = 0 ↔ below lam fl = true ∧ below lam (fl + 1) = true).
Proof.
  intros Hw.
  apply set_lambda_window_spec in Hw
    as (c & fl & lo & hi & Hc & Hfl & Hfl0 & Hcr & Hlo & Hhi & Hlor & Hhir & Hsz & Ho & _ & _).
  assert (Hdiv : 0 ≤ c / 2 ∧ 2 * (c / 2) ≤ c).
  { split; [apply Z.div_pos; lia | apply Z.mul_div_le; lia]. }
  assert (Hdiv' : c < 2 * (c / 2) + 2).
  { pose proof (Z.mul_succ_div_gt c 2). lia. }
  assert (Hc2 : fl - c / 2 + c / 2 = fl) by lia.
  assert (Hc3 : fl - c / 2 + (c / 2 + 1) = fl + 1) by lia.
  assert (Hlo' : below lam fl = true ↔ lo = c / 2 + 1).
  { split.
    - intros Hb. destruct Hlo as [[_ Hall] | (i & Hi & -> & _ & Hall)].
      + specialize (Hall (c / 2)). rewrite Hc2 in Hall. rewrite Hall in Hb by lia. done.
      + destruct (decide (i = c / 2)) as [->|]; [done|].
        specialize (Hall (c / 2)). rewrite Hc2 in Hall. rewrite Hall in Hb by lia. done.
    - intros ->. destruct Hlo as [[? _] | (i & Hi & Hi' & Hb & _)]; [lia|].
      assert (i = c / 2) as -> by lia. by rewrite Hc2 in Hb. }
  assert (Hhi' : below lam (fl + 1) = true ↔ hi = c / 2).
  { split.
    - intros Hb. destruct Hhi as [[_ Hall] | (i & Hi & -> & _ & Hall)].
      + specialize (Hall (c / 2 + 1)). rewrite Hc3 in Hall. rewrite Hall in Hb by lia. done.
      + destruct (decide (i = c / 2 + 1)) as [->|]; [lia|].
        specialize (Hall (c / 2 + 1)). rewrite Hc3 in Hall. rewrite Hall in Hb by lia. done.
    - intros ->. destruct Hhi as [[? _] | (i & Hi & Hi' & Hb & _)]; [lia|].
      assert (i = c / 2 + 1) as -> by lia. by rewrite Hc3 in Hb. }
  exists fl. split; [done|]. split; [|split].
  - split.
    + intros Hb. assert (lo ≠ c / 2 + 1) by (rewrite <- Hlo'; congruence). lia.
    + intros Hr. apply not_true_is_false. intros Hb. apply Hlo' in Hb. lia.
  - rewrite Hlo'. lia.
  - rewrite Hlo', Hhi'. lia.
Qed.


End floor.

(** ** What the scans read and evaluate *)

Section probes.
Variables log exp lgamma : float → float.
Variable lam : float.
Variable left : Z.

Local Abbreviation pp := (poisson_distribution.pp exp lgamma lam (log lam) left).
Local Abbreviation scan_down := (poisson_distribution.scan_down exp lgamma lam (log lam) left).
Local Abbreviation scan_up := (poisson_distribution.scan_up exp lgamma lam (log lam) left).

(** Every [x = left + i] the upward scan evaluates is an [int]: the first
    one, and each one up to [hi]. *)
Lemma scan_up_range hi0 n : ∀ i (p p2 : list float) hi,
  scan_up hi0 n i p = Some (p2, hi) →
  (n ≠ O → left + i ≤ INT_MAX)
  ∧ ∀ j, i ≤ j < i + Z.of_nat n → j ≤ hi → left + j ≤ INT_MAX.
Proof.
  induction n as [|n IH]; intros i p p2 hi; simpl.
  - intros _. split; [done | intros; lia].
  - destruct (pp i) as [v|] eqn:Ev; simpl; [|discriminate].
    apply pp_Some in Ev as [-> Hr].
    destruct (_ <? _)%float.
    + destruct (int_sub i 1) as [h|] eqn:Eh; simpl; [|discriminate].
      apply int_sub_Some in Eh as [-> _]. intros [= <- <-].
      split; [intros _; lia | intros; lia].
    + destruct (vset p i _) as [p'|]; simpl; [|discriminate].
      destruct (int_add i 1) as [i'|] eqn:Ei; simpl; [|discriminate].
      apply int_add_Some in Ei as [-> _]. intros H.
      apply IH in H as [_ Hj]. split; [intros _; lia|].
      intros j Hj1 Hj2. destruct (decide (j = i)) as [->|]; [lia|].
      apply Hj; lia.
Qed.

(** Whether the scans and the compaction are defined, and the cutoffs
    they return, depend on the length of the array only, not on what it
    holds. *)
Lemma scan_down_any_array k : ∀ (p p' p1 : list float) lo,
  length p' = length p →
  scan_down k p = Some (p1, lo) →
  ∃ p1', scan_down k p' = Some (p1', lo) ∧ length p1' = length p1.
Proof.
  induction k as [|k IH]; intros p p' p1 lo Hlen; simpl.
  - intros [= <- <-]. eauto.
  - destruct (pp (Z.of_nat k)) as [v|]; simpl; [|discriminate].
    destruct (_ <? _)%float.
    + destruct (int_add (Z.of_nat k) 1) as [l|]; simpl; [|discriminate].
      intros [= <- <-]. eauto.
    + destruct (vset p (Z.of_nat k) v) as [q|] eqn:Es; simpl; [|discriminate].
      apply vset_Some in Es as [Hk ->].
      assert (vset p' (Z.of_nat k) v = Some (<[Z.to_nat (Z.of_nat k) := v]> p')) as ->.
      { apply vset_Some. split; [lia | done]. }
      simpl. apply IH. by rewrite !length_insert.
Qed.

Lemma scan_up_any_array hi0 n : ∀ i (p p' p2 : list float) hi,
  length p' = length p →
  scan_up hi0 n i p = Some (p2, hi) →
  ∃ p2', scan_up hi0 n i p' = Some (p2', hi) ∧ length p2' = length p2.
Proof.
  induction n as [|n IH]; intros i p p' p2 hi Hlen; simpl.
  - intros [= <- <-]. eauto.
  - destruct (pp i) as [v|]; simpl; [|discriminate].
    destruct (_ <? _)%float.
    + destruct (int_sub i 1) as [l|]; simpl; [|discriminate].
      intros [= <- <-]. eauto.
    + destruct (vset p i v) as [q|] eqn:Es; simpl; [|discriminate].
      apply vset_Some in Es as [Hk ->].
      assert (vset p' i v = Some (<[Z.to_nat i := v]> p')) as ->.
      { apply vset_Some. split; [lia | done]. }
      simpl. destruct (int_add i 1) as [i'|]; simpl; [|discriminate].
      apply IH. by rewrite !length_insert.
Qed.

Lemma compact_any_array lo n : ∀ i (p p' p3 : list float),
  length p' = length p →
  poisson_distribution.compact lo n i p = Some p3 →
  is_Some (poisson_distribution.compact lo n i p').
Proof.
  induction n as [|n IH]; intros i p p' p3 Hlen; simpl; [eauto|].
  destruct (vget p i) as [v|] eqn:Ev; simpl; [|discriminate].
  apply vget_Some in Ev as [Hi Ev].
  destruct (lookup_lt_is_Some_2 p' (Z.to_nat i)) as [v' Hv'].
  { rewrite Hlen. by eapply lookup_lt_Some. }
  assert (vget p' i = Some v') as -> by (apply vget_Some; done).
  simpl. destruct (int_sub i lo) as [j|]; simpl; [|discriminate].
  destruct (vset p j v) as [q|] eqn:Es; simpl; [|discriminate].
  apply vset_Some in Es as [Hk ->].
  assert (vset p' j v' = Some (<[Z.to_nat j := v']> p')) as ->.
  { apply vset_Some. split; [lia | done]. }
  simpl. destruct (int_add i 1) as [i'|]; simpl; [|discriminate].
  apply IH. by rewrite !length_insert.
Qed.

End probes.

Section contents.
Variables log exp lgamma : float → float.

Local Abbreviation calculate_probabilities :=
  (poisson_distribution.calculate_probabilities log exp lgamma).

(** [calculate_probabilities] never reads an element of [p] it has not
    written: run on two arrays of [capacity] elements, it is defined on
    both or on neither, and returns the same [size], the same [offset] and
    the same [size] leading entries. *)
Theorem window_independent_of_array_contents (p p' : list float) c lam w :
  1 ≤ c ≤ INT_MAX →
  length p = Z.to_nat c →
  length p' = Z.to_nat c →
  calculate_probabilities p c lam = Some w →
  ∃ w', calculate_probabilities p' c lam = Some w'
        ∧ size w' = size w ∧ offset w' = offset w
        ∧ ∀ j, 0 ≤ j < size w →
            probabilities w' !! Z.to_nat j = probabilities w !! Z.to_nat j.
Proof.
  intros Hc Hlen Hlen' Hw.
  assert (Hd : ∃ w', calculate_probabilities p' c lam = Some w'
                     ∧ size w' = size w ∧ offset w' = offset w).
  { revert Hw. unfold poisson_distribution.calculate_probabilities.
    destruct (floor_to_int lam) as [fl|]; simpl; [|discriminate].
    destruct (poisson_distribution.scan_down _ _ _ _ _ _ p) as [[p1 lo]|] eqn:Ed;
      simpl; [|discriminate].
    eapply (scan_down_any_array _ _ _ _ _ _ p p') in Ed as (p1' & -> & Hl1);
      [|congruence].
    simpl.
    destruct (poisson_distribution.scan_up _ _ _ _ _ _ _ _ p1) as [[p2 hi]|] eqn:Eu;
      simpl; [|discriminate].
    eapply (scan_up_any_array _ _ _ _ _ _ _ _ p1 p1') in Eu as (p2' & -> & Hl2);
      [|congruence].
    simpl.
    destruct (poisson_distribution.compact _ _ _ p2) as [p3|] eqn:Ec;
      simpl; [|discriminate].
    eapply (compact_any_array _ _ _ p2 p2') in Ec as [p3' ->]; [|congruence].
    simpl.
    destruct (int_sub hi lo) as [d|]; simpl; [|discriminate].
    destruct (int_add d 1) as [sz|]; simpl; [|discriminate].
    destruct (int_add _ lo) as [off|]; simpl; [|discriminate].
    intros [= <-]. eauto. }
  destruct Hd as (w' & Hw' & Hs & Ho). exists w'.
  split; [done|]. split; [done|]. split; [done|].
  intros j Hj.
  apply calculate_probabilities_spec in Hw
    as (_ & _ & _ & _ & _ & _ & _ & _ & _ & _ & _ & Hp); [|done..].
  apply calculate_probabilities_spec in Hw'
    as (_ & _ & _ & _ & _ & _ & _ & _ & _ & _ & _ & Hp'); [|done..].
  destruct (Hp j Hj) as [-> _]. destruct (Hp' j) as [-> _]; [lia|].
  by rewrite Ho.
Qed.

Local Abbreviation set_lambda_window :=
  (poisson_distribution.set_lambda_window log exp lgamma).

(** Every window comes with the first upward probe [floor + 1] and every
    kept outcome inside [int]. *)
Lemma set_lambda_window_range lam w :
  set_lambda_window lam = Some w →
  ∃ c fl lo hi,
    poisson_distribution.capacity_of lam = Some c
    ∧ floor_to_int lam = Some fl
    ∧ 0 ≤ fl ∧ 64 ≤ c ≤ 2 ^ 26 ∧ c mod 2 = 0
    ∧ 0 ≤ lo ≤ c / 2 + 1 ∧ c / 2 ≤ hi ≤ c - 1
    ∧ size w = hi - lo + 1
    ∧ offset w = fl - c / 2 + lo
    ∧ fl + 1 ≤ INT_MAX
    ∧ fl - c / 2 + hi ≤ INT_MAX.
Proof.
  unfold poisson_distribution.set_lambda_window. intros H.
  destruct (poisson_distribution.capacity_of lam) as [c|] eqn:Ec; [|discriminate].
  simpl in H. revert H.
  unfold poisson_distribution.calculate_probabilities.
  destruct (floor_to_int lam) as [fl|] eqn:Hfl; simpl; [|discriminate].
  pose proof (capacity_of_supported lam fl Hfl) as Hc. rewrite Ec in Hc.
  destruct Hc as (Hfl0 & Hcr & n & _ & Hn).
  pose proof (floor_to_int_le lam fl Hfl) as [_ Hflm].
  assert (Hdiv : c / 2 = n) by (subst c; rewrite Z.mul_comm; apply Z.div_mul; lia).
  assert (HIM : INT_MAX = 2147483647) by reflexivity.
  assert (HIm : INT_MIN = -2147483648) by reflexivity.
  assert (HSM : SIZE_MAX = 18446744073709551615) by reflexivity.
  rewrite left_of_exact by lia.
  rewrite (to_int_id (c / 2)) by lia.
  rewrite (to_size_t_id (c - 1)) by lia.
  rewrite (to_int_id (c - 1)) by lia.
  rewrite (to_size_t_id (c / 2 + 1)) by lia.
  rewrite (to_int_id (c / 2 + 1)) by lia.
  rewrite (to_int_id c) by lia.
  destruct (poisson_distribution.scan_down _ _ _ _ _ _ _) as [[p1 lo]|] eqn:Ed;
    simpl; [|discriminate].
  apply scan_down_spec in Ed as (_ & Hlo & _).
  rewrite Z2Nat.id in Hlo by lia.
  destruct (poisson_distribution.scan_up _ _ _ _ _ _ _ _ _) as [[p2 hi]|] eqn:Eu;
    simpl; [|discriminate].
  pose proof Eu as Eu'.
  apply scan_up_spec in Eu as (_ & Hcase & _); [|lia].
  apply scan_up_range in Eu' as [Hfirst Hrange].
  rewrite Z2Nat.id in Hcase, Hrange by lia.
  assert (Hhi : c / 2 ≤ hi ≤ c - 1).
  { destruct Hcase as [[-> _] | (Hh & _)]; lia. }
  destruct (poisson_distribution.compact _ _ _ _) as [p3|]; simpl; [|discriminate].
  destruct (int_sub hi lo) as [d|] eqn:E1; simpl; [|discriminate].
  apply int_sub_Some in E1 as [-> _].
  destruct (int_add (hi - lo) 1) as [sz|] eqn:E2; simpl; [|discriminate].
  apply int_add_Some in E2 as [-> _].
  destruct (int_add _ lo) as [off|] eqn:E3; simpl; [|discriminate].
  apply int_add_Some in E3 as [-> _].
  intros [= <-]. simpl.
  exists c, fl, lo, hi.
  split; [done|]. split; [done|]. split; [done|]. split; [done|].
  split; [subst c; rewrite Z.mul_comm; apply Z_mod_mult|].
  split; [done|]. split; [done|]. split; [done|]. split; [done|].
  split.
  - assert (Hne : Z.to_nat (c - (c / 2 + 1)) ≠ O) by lia.
    specialize (Hfirst Hne). lia.
  - destruct (decide (hi = c / 2)) as [->|]; [lia|].
    apply Hrange; lia.
Qed.

(** Every outcome [offset + j] a window covers is an [int] and lies within
    half the capacity of the floor of the rate. *)
Theorem window_outcomes_near_floor lam w :
  set_lambda_window lam = Some w →
  ∃ c fl,
    poisson_distribution.capacity_of lam = Some c
    ∧ floor_to_int lam = Some fl
    ∧ ∀ j, 0 ≤ j < size w →
        fl - c / 2 ≤ offset w + j < fl + c / 2
        ∧ INT_MIN ≤ offset w + j ≤ INT_MAX.
Proof.
  intros Hw.
  apply set_lambda_window_range in Hw
    as (c & fl & lo & hi & Hc & Hfl & Hfl0 & Hcr & Hev & Hlo & Hhi & Hsz & Ho & _ & Hmax).
  exists c, fl. split; [done|]. split; [done|]. intros j Hj.
  assert (Hdiv : c = 2 * (c / 2)).
  { pose proof (Z.div_mod c 2). lia. }
  assert (HIm : INT_MIN = -2147483648) by reflexivity.
  lia.
Qed.

(** A rate whose floor is [INT_MAX] has no window: the first upward probe
    [x = left + i] is [INT_MAX + 1], a signed overflow. *)
Theorem floor_at_int_max_has_no_window lam :
  floor_to_int lam = Some INT_MAX →
  set_lambda_window lam = None.
Proof.
  intros Hfl. destruct (set_lambda_window lam) as [w|] eqn:Hw; [|done].
  apply set_lambda_window_range in Hw
    as (c & fl & lo & hi & _ & Hfl' & _ & _ & _ & _ & _ & _ & _ & Hmax & _).
  assert (fl = INT_MAX) as -> by congruence. lia.
Qed.

End contents.

(** ** More on the cache *)

Lemma eqb_same_kind x y :
  (x =? y)%float = true →
  (double_parts x = None ↔ double_parts y = None)
  ∧ (x <? 0)%float = (y <? 0)%float.
Proof.
  rewrite FloatAxioms.eqb_spec, !ltb_spec. unfold double_parts, SFeqb, SFltb.
  change (Prim2SF 0) with (S754_zero false).
  destruct (Prim2SF x) as [sx|sx| |sx mx ex], (Prim2SF y) as [sy|sy| |sy my ey];
    simpl; try done; try (by destruct sx); try (by destruct sy);
    try (by destruct sx, sy).
Qed.

Lemma eqb_0_sym lam : (0 =? lam)%float = (lam =? 0)%float.
Proof.
  rewrite !FloatAxioms.eqb_spec. unfold SFeqb.
  change (Prim2SF 0) with (S754_zero false).
  destruct (Prim2SF lam) as [s|s| |s m e]; simpl; try done; by destruct s.
Qed.

Section stored_rate.
Variables log exp lgamma : float → float.

Local Abbreviation set_lambda :=
  (poisson_distribution_manager.set_lambda log exp lgamma).
Local Abbreviation build :=
  (poisson_distribution.set_lambda log exp lgamma).
Local Abbreviation set_lambda_window :=
  (poisson_distribution.set_lambda_window log exp lgamma).
Local Abbreviation construct :=
  (poisson_distribution.construct log exp lgamma).

(** What [set_lambda] does to a manager and to the device: nothing, or the
    structure held before is released and the structure of the new rate's
    window is put at an address that was free. *)
Lemma set_lambda_cases nl m (h : gmap nat (list float)) m' h' :
  set_lambda nl m h = Some (m', h') →
  (m' = m ∧ h' = h)
  ∨ ∃ w a,
      set_lambda_window nl = Some w
      ∧ m' = Manager (Distribution (size w) (offset w) (Some a)) nl
      ∧ (a ∉ dom (poisson_distribution_manager.destroy m h))
      ∧ h' = <[a := take (Z.to_nat (size w)) (probabilities w)]>
               (poisson_distribution_manager.destroy m h).
Proof.
  unfold poisson_distribution_manager.set_lambda.
  destruct (lambda m =? nl)%float; simpl.
  - intros [= <- <-]. by left.
  - unfold poisson_distribution.set_lambda.
    destruct (set_lambda_window nl) as [w|]; simpl; [|discriminate].
    unfold init, poisson_distribution_manager.destroy, deallocate. simpl.
    intros H. right. exists w.
    destruct (dis_table (dis m)) as [a0|]; simpl in *; injection H as <- <-;
      eexists; (split; [done|]); (split; [done|]); (split; [apply is_fresh | done]).
Qed.

Lemma set_lambda_window_zero lam :
  (lam =? 0)%float = true → is_Some (set_lambda_window lam).
Proof.
  intros [s Hs]%eqb_0_zero.
  destruct (capacity_of_zero lam s Hs) as [Hc Hfl].
  unfold poisson_distribution.set_lambda_window. rewrite Hc. simpl.
  by apply (calculate_probabilities_defined _ _ _ _ _ 64 0).
Qed.

(** A freshly constructed manager stores the rate 0.0, so its first
    [set_lambda] with a zero of either sign builds nothing and leaves it
    without a structure, whereas the distribution's own constructor builds
    the structure of that rate.  With any other rate the manager holds what
    the constructor builds. *)
Theorem fresh_manager_skips_zero_rate lam (h : gmap nat (list float)) :
  ((lam =? 0)%float = true →
     set_lambda lam poisson_distribution_manager.default h
     = Some (poisson_distribution_manager.default, h)
     ∧ ∃ d h' a, construct lam h = Some (d, h')
                 ∧ dis_table d = Some a ∧ (a ∉ dom h) ∧ is_Some (h' !! a))
  ∧ ((lam =? 0)%float = false →
       set_lambda lam poisson_distribution_manager.default h
       = '(d, h') ← construct lam h; Some (Manager d lam, h')).
Proof.
  unfold poisson_distribution_manager.set_lambda, poisson_distribution.construct.
  simpl. rewrite eqb_0_sym. split; intros Hz; rewrite Hz; simpl; [|done].
  split; [done|].
  destruct (set_lambda_window_zero lam Hz) as [w Hw].
  unfold poisson_distribution.set_lambda. rewrite Hw. simpl.
  unfold init. simpl. eexists _, _, _. split; [done|]. split; [done|].
  split; [apply is_fresh | by rewrite lookup_insert_eq].
Qed.

(** A rate the builder accepts is finite and not negative. *)
Lemma build_Some_valid lam d h r :
  build lam d h = Some r →
  double_parts lam ≠ None ∧ (lam <? 0)%float = false.
Proof.
  unfold poisson_distribution.set_lambda, poisson_distribution.set_lambda_window.
  intros H. split.
  - intros E. rewrite (capacity_of_undefined lam) in H by auto. discriminate.
  - destruct (lam <? 0)%float eqn:E; [|done].
    rewrite (capacity_of_undefined lam) in H by auto. discriminate.
Qed.

(** The rate a manager stores is always finite and not negative, so a
    negative, infinite or NaN argument never compares equal to it:
    [set_lambda] with such an argument always reaches the builder, where
    the conversion of the capacity is undefined. *)
Theorem stored_rate_is_finite_and_not_negative m :
  poisson_distribution_manager.reachable log exp lgamma m →
  double_parts (lambda m) ≠ None
  ∧ (lambda m <? 0)%float = false
  ∧ ∀ new_lambda h,
      double_parts new_lambda = None ∨ (new_lambda <? 0)%float = true →
      (lambda m =? new_lambda)%float = false
      ∧ set_lambda new_lambda m h = None.
Proof.
  intros Hr.
  assert (Hv : double_parts (lambda m) ≠ None ∧ (lambda m <? 0)%float = false).
  { induction Hr as [ | new m h m' h' _ IH Hs | other new other' _ IH Hm
                    | other new other' _ IH Hm
                    | this other this' other' _ IHt _ IHo Hm
                    | this other this' other' _ IHt _ IHo Hm | this _ IH ].
    - done.
    - unfold poisson_distribution_manager.set_lambda in Hs.
      destruct (lambda m =? new)%float; simpl in Hs.
      + by injection Hs as <- <-.
      + destruct (build new (dis m) h) as [[d h1]|] eqn:Eb; simpl in Hs; [|discriminate].
        injection Hs as <- <-. simpl. exact (build_Some_valid _ _ _ _ Eb).
    - by injection Hm as <- <-.
    - by injection Hm as <- <-.
    - by injection Hm as <- <-.
    - by injection Hm as <- <-.
    - exact IH. }
  destruct Hv as [Hp Hn]. split; [done|]. split; [done|].
  intros nl h Hbad.
  assert (He : (lambda m =? nl)%float = false).
  { destruct (lambda m =? nl)%float eqn:E; [|done].
    apply eqb_same_kind in E as [E1 E2].
    destruct Hbad as [Hb|Hb]; [by apply E1 in Hb | congruence]. }
  split; [done|].
  unfold poisson_distribution_manager.set_lambda. rewrite He. simpl.
  unfold poisson_distribution.set_lambda, poisson_distribution.set_lambda_window.
  by rewrite (capacity_of_undefined nl Hbad).
Qed.

End stored_rate.

Section programs.
Variables log exp lgamma : float → float.

Local Abbreviation exec := (program.exec log exp lgamma).
Local Abbreviation run := (program.run log exp lgamma).
Local Abbreviation coherent := (coherent log exp lgamma).

Lemma destroy_lookup m (h : gmap nat (list float)) a :
  dis_table (dis m) ≠ Some a →
  poisson_distribution_manager.destroy m h !! a = h !! a.
Proof.
  unfold poisson_distribution_manager.destroy, deallocate. intros Hne.
  destruct (dis_table (dis m)) as [b|]; simpl; [|done].
  apply lookup_delete_ne. congruence.
Qed.

Lemma destroy_lookup_is_Some m (h : gmap nat (list float)) a :
  is_Some (poisson_distribution_manager.destroy m h !! a) →
  is_Some (h !! a) ∧ dis_table (dis m) ≠ Some a.
Proof.
  unfold poisson_distribution_manager.destroy, deallocate.
  destruct (dis_table (dis m)) as [b|]; simpl; [|done].
  destruct (decide (b = a)) as [->|Hne].
  - rewrite lookup_delete_eq. by intros [? ?].
  - rewrite lookup_delete_ne by done. intros H. split; [done | congruence].
Qed.

Lemma owns_insert (l : gmap nat manager) (h : gmap nat (list float)) i a j m :
  owns (ProgramState (<[j := m]> l) h) i a
  ↔ (i = j ∧ dis_table (dis m) = Some a) ∨ (i ≠ j ∧ owns (ProgramState l h) i a).
Proof.
  unfold owns. simpl. destruct (decide (i = j)) as [->|Hne].
  - rewrite lookup_insert_eq. split.
    + intros (m0 & [= <-] & H). auto.
    + intros [[_ H] | [? _]]; [eauto | done].
  - rewrite lookup_insert_ne by done. split; [auto|]. by intros [[? _] | [_ H]].
Qed.

(** Each statement keeps the managers' structures allocated, held by one
    manager each, and built for the stored rates. *)
Lemma exec_keeps_exclusive_coherent c s s' :
  exclusive s → coherent s → exec c s = Some s' → exclusive s' ∧ coherent s'.
Proof.
  destruct s as [l h]. intros [Hv Hd] Hc. simpl in Hv, Hd.
  destruct c as [a | a b | a b | a nl | a]; simpl.
  - (* Construct *)
    destruct (l !! a) eqn:Ea; [discriminate|]. intros [= <-].
    split; [split|].
    + intros i x [[_ ?] | [_ H]]%owns_insert; [done|]. by apply (Hv i).
    + intros i j x [[_ ?] | [? Hi]]%owns_insert [[_ ?] | [? Hj]]%owns_insert; try done.
      by apply (Hd i j x).
    + intros i m. simpl. destruct (decide (i = a)) as [->|Hne].
      * rewrite lookup_insert_eq. by intros [= <-].
      * rewrite lookup_insert_ne by done. apply Hc.
  - (* MoveConstruct *)
    destruct (l !! a) eqn:Ea; [discriminate|].
    destruct (l !! b) as [other|] eqn:Eb; simpl; [|discriminate].
    intros [= <-].
    assert (Hab : a ≠ b) by congruence.
    split; [split|].
    + intros i x [[_ Hx] | [_ [[_ ?] | [_ H]]%owns_insert]]%owns_insert; simpl in *;
        [|done|].
      * apply (Hv b). by exists other.
      * by apply (Hv i).
    + intros i j x Hi Hj.
      apply owns_insert in Hi as [[-> Hi] | [? [[_ ?] | [? Hi]]%owns_insert]]; [|done|];
      apply owns_insert in Hj as [[-> Hj] | [? [[_ ?] | [? Hj]]%owns_insert]];
        try done; simpl in *.
      * exfalso. assert (j = b); [|done]. apply (Hd j b x); [done|]. by exists other.
      * exfalso. assert (i = b); [|done]. apply (Hd i b x); [done|]. by exists other.
      * by apply (Hd i j x).
    + intros i m. simpl. destruct (decide (i = a)) as [->|Hne].
      * rewrite lookup_insert_eq. intros [= <-]. simpl. apply (Hc b other Eb).
      * rewrite lookup_insert_ne by done. destruct (decide (i = b)) as [->|Hne'].
        -- rewrite lookup_insert_eq. by intros [= <-].
        -- rewrite lookup_insert_ne by done. apply Hc.
  - (* MoveAssign *)
    destruct (l !! a) as [this|] eqn:Ea; simpl; [|discriminate].
    destruct (decide (a = b)) as [->|Hab].
    + intros [= <-]. split; [split|].
      * intros i x [[_ ?] | [_ H]]%owns_insert; [done|]. by apply (Hv i).
      * intros i j x [[_ ?] | [? Hi]]%owns_insert [[_ ?] | [? Hj]]%owns_insert; try done.
        by apply (Hd i j x).
      * intros i m. simpl. destruct (decide (i = b)) as [->|Hne].
        -- rewrite lookup_insert_eq. by intros [= <-].
        -- rewrite lookup_insert_ne by done. apply Hc.
    + destruct (l !! b) as [other|] eqn:Eb; simpl; [|discriminate].
      intros [= <-]. split; [split|].
      * intros i x [[_ Hx] | [_ [[_ ?] | [_ H]]%owns_insert]]%owns_insert; simpl in *;
          [|done|].
        -- apply (Hv b). by exists other.
        -- by apply (Hv i).
      * intros i j x Hi Hj.
        apply owns_insert in Hi as [[-> Hi] | [? [[_ ?] | [? Hi]]%owns_insert]]; [|done|];
        apply owns_insert in Hj as [[-> Hj] | [? [[_ ?] | [? Hj]]%owns_insert]];
          try done; simpl in *.
        -- exfalso. assert (j = b); [|done]. apply (Hd j b x); [done|]. by exists other.
        -- exfalso. assert (i = b); [|done]. apply (Hd i b x); [done|]. by exists other.
        -- by apply (Hd i j x).
      * intros i m. simpl. destruct (decide (i = a)) as [->|Hne].
        -- rewrite lookup_insert_eq. intros [= <-]. simpl. apply (Hc b other Eb).
        -- rewrite lookup_insert_ne by done. destruct (decide (i = b)) as [->|Hne'].
           ++ rewrite lookup_insert_eq. by intros [= <-].
           ++ rewrite lookup_insert_ne by done. apply Hc.
  - (* SetLambda *)
    destruct (l !! a) as [m|] eqn:Ea; simpl; [|discriminate].
    destruct (poisson_distribution_manager.set_lambda _ _ _ _ _ _) as [[m' h']|] eqn:Es;
      simpl; [|discriminate].
    intros [= <-].
    apply set_lambda_cases in Es as [[-> ->] | (w & x0 & Hw & -> & Hfresh & ->)].
    + by rewrite insert_id.
    + assert (Hother : ∀ i x, i ≠ a → owns (ProgramState l h) i x →
                x ≠ x0 ∧ poisson_distribution_manager.destroy m h !! x = h !! x).
      { intros i x Hne Hi.
        assert (Hx : poisson_distribution_manager.destroy m h !! x = h !! x).
        { apply destroy_lookup. intros Hm. apply Hne. apply (Hd i a x); [done|].
          by exists m. }
        split; [|done]. intros ->. apply Hfresh, elem_of_dom. rewrite Hx.
        by apply (Hv i). }
      split; [split|].
      * intros i x [[_ Hx] | [Hne Hi]]%owns_insert; simpl in *.
        -- injection Hx as <-. by rewrite lookup_insert_eq.
        -- destruct (Hother i x Hne Hi) as [Hx0 Hx].
           rewrite lookup_insert_ne by done. rewrite Hx. by apply (Hv i).
      * intros i j x Hi Hj.
        apply owns_insert in Hi as [[-> Hi] | [Hni Hi]];
        apply owns_insert in Hj as [[-> Hj] | [Hnj Hj]]; simpl in *; try done.
        -- injection Hi as <-. by destruct (Hother j x0 Hnj Hj).
        -- injection Hj as <-. by destruct (Hother i x0 Hni Hi).
        -- by apply (Hd i j x).
      * intros i m'. simpl. destruct (decide (i = a)) as [->|Hne].
        -- rewrite lookup_insert_eq. intros [= <-]. simpl.
           exists w. rewrite lookup_insert_eq. done.
        -- rewrite lookup_insert_ne by done. intros Hi.
           specialize (Hc i m' Hi).
           destruct (dis_table (dis m')) as [x|] eqn:Ex; [|done].
           destruct (Hother i x Hne) as [Hx0 Hx]; [by exists m'|].
           rewrite lookup_insert_ne by done. by rewrite Hx.
  - (* Destroy *)
    destruct (l !! a) as [m|] eqn:Ea; simpl; [|discriminate].
    intros [= <-].
    assert (Hown : ∀ i x, owns (ProgramState (delete a l)
                     (poisson_distribution_manager.destroy m h)) i x →
              i ≠ a ∧ owns (ProgramState l h) i x
              ∧ poisson_distribution_manager.destroy m h !! x = h !! x).
    { intros i x (n & Hn & Hx). simpl in Hn.
      destruct (decide (i = a)) as [->|Hne]; [by rewrite lookup_delete_eq in Hn|].
      rewrite lookup_delete_ne in Hn by done.
      split; [done|]. split; [by exists n|].
      apply destroy_lookup. intros Hm. apply Hne. apply (Hd i a x); [by exists n | by exists m]. }
    split; [split|].
    + intros i x Hi. destruct (Hown i x Hi) as (_ & Hi' & Hx). simpl. rewrite Hx.
      by apply (Hv i).
    + intros i j x Hi Hj. destruct (Hown i x Hi) as (_ & Hi' & _).
      destruct (Hown j x Hj) as (_ & Hj' & _). by apply (Hd i j x).
    + intros i n. simpl. intros Hn.
      destruct (decide (i = a)) as [->|Hne]; [by rewrite lookup_delete_eq in Hn|].
      assert (Hn' := Hn). rewrite lookup_delete_ne in Hn' by done.
      specialize (Hc i n Hn').
      destruct (dis_table (dis n)) as [x|] eqn:Ex; [|done].
      destruct (Hown i x) as (_ & _ & Hx); [by exists n|]. by rewrite Hx.
Qed.

Lemma run_keeps_exclusive_coherent cs : ∀ s s',
  exclusive s → coherent s → run cs s = Some s' → exclusive s' ∧ coherent s'.
Proof.
  induction cs as [|c cs IH]; intros s s' He Hc; simpl.
  - by intros [= <-].
  - destruct (exec c s) as [s1|] eqn:E; simpl; [|discriminate].
    destruct (exec_keeps_exclusive_coherent c s s1 He Hc E) as [He1 Hc1].
    by apply IH.
Qed.

Lemma initial_exclusive_coherent : exclusive initial ∧ coherent initial.
Proof.
  split; [split|].
  - by intros i a (m & Hm & _).
  - by intros i j a (m & Hm & _).
  - by intros i m Hm.
Qed.

(** In every state a program reaches, the structure a manager holds is
    allocated and no other manager holds it: a destructor releases a
    structure that is allocated, and the structures of the other managers
    stay allocated when it runs. *)
Theorem structures_are_held_exclusively cs s :
  run cs initial = Some s →
  ∀ i a, owns s i a →
    is_Some (heap s !! a)
    ∧ ∀ j n, j ≠ i → live s !! j = Some n →
        dis_table (dis n) ≠ Some a
        ∧ poisson_distribution_manager.destroy n (heap s) !! a = heap s !! a.
Proof.
  intros Hrun.
  destruct initial_exclusive_coherent as [He Hc].
  destruct (run_keeps_exclusive_coherent cs _ _ He Hc Hrun) as [[Hv Hd] _].
  intros i a Hi. split; [by apply (Hv i)|].
  intros j n Hne Hn.
  assert (Hna : dis_table (dis n) ≠ Some a).
  { intros Hx. apply Hne. apply (Hd j i a); [by exists n | done]. }
  split; [done | by apply destroy_lookup].
Qed.

(** In every state a program reaches, a manager that holds a structure
    holds the one [set_lambda] builds for the rate it stores, with the
    [size] and [offset] of that rate's window; a manager without a
    structure has the members of a default-constructed distribution. *)
Theorem cached_structure_is_that_of_stored_rate cs s :
  run cs initial = Some s →
  ∀ i m, live s !! i = Some m →
    match dis_table (dis m) with
    | Some a =>
        ∃ w, poisson_distribution.set_lambda_window log exp lgamma (lambda m) = Some w
             ∧ dis_size (dis m) = size w
             ∧ dis_offset (dis m) = offset w
             ∧ heap s !! a = Some (take (Z.to_nat (size w)) (probabilities w))
    | None => dis m = empty_distribution
    end.
Proof.
  intros Hrun.
  destruct initial_exclusive_coherent as [He Hc].
  by destruct (run_keeps_exclusive_coherent cs _ _ He Hc Hrun) as [_ H].
Qed.

(** A statement other than a move assignment onto a manager that holds a
    structure leaves every allocation held by some manager. *)
Lemma exec_keeps_no_leak c s s' :
  no_leak s → program.overwrites c s = false → exec c s = Some s' → no_leak s'.
Proof.
  destruct s as [l h]. intros Hl. destruct c as [a | a b | a b | a nl | a]; simpl.
  - destruct (l !! a) eqn:Ea; [discriminate|]. intros _ [= <-].
    intros x Hx. destruct (Hl x Hx) as [i Hi]. exists i.
    apply owns_insert. right. split; [|done].
    intros ->. destruct Hi as (m & Hm & _). simpl in Hm. congruence.
  - destruct (l !! a) eqn:Ea; [discriminate|].
    destruct (l !! b) as [other|] eqn:Eb; simpl; [|discriminate].
    intros _ [= <-]. intros x Hx. destruct (Hl x Hx) as [i Hi].
    destruct (decide (i = b)) as [->|Hne].
    + exists a. apply owns_insert. left. split; [done|]. simpl.
      destruct Hi as (m & Hm & Hx'). simpl in Hm. congruence.
    + exists i. apply owns_insert. right. split.
      * intros ->. destruct Hi as (m & Hm & _). simpl in Hm. congruence.
      * apply owns_insert. right. done.
  - destruct (l !! a) as [this|] eqn:Ea; simpl; [|discriminate].
    intros Hno%bool_decide_eq_false.
    assert (Hthis : dis_table (dis this) = None).
    { destruct (dis_table (dis this)); [|done]. exfalso. apply Hno. eauto. }
    destruct (decide (a = b)) as [->|Hab].
    + intros [= <-]. intros x Hx. destruct (Hl x Hx) as [i Hi]. exists i.
      apply owns_insert. right. split; [|done].
      intros ->. destruct Hi as (m & Hm & Hx'). simpl in Hm. congruence.
    + destruct (l !! b) as [other|] eqn:Eb; simpl; [|discriminate].
      intros [= <-]. intros x Hx. destruct (Hl x Hx) as [i Hi].
      destruct (decide (i = b)) as [->|Hne].
      * exists a. apply owns_insert. left. split; [done|]. simpl.
        destruct Hi as (m & Hm & Hx'). simpl in Hm. congruence.
      * exists i. apply owns_insert. right. split.
        -- intros ->. destruct Hi as (m & Hm & Hx'). simpl in Hm. congruence.
        -- apply owns_insert. right. done.
  - destruct (l !! a) as [m|] eqn:Ea; simpl; [|discriminate].
    destruct (poisson_distribution_manager.set_lambda _ _ _ _ _ _) as [[m' h']|] eqn:Es;
      simpl; [|discriminate].
    intros _ [= <-].
    apply set_lambda_cases in Es as [[-> ->] | (w & x0 & Hw & -> & Hfresh & ->)].
    + by rewrite insert_id.
    + intros x. simpl. destruct (decide (x = x0)) as [->|Hne].
      * intros _. exists a. apply owns_insert. by left.
      * rewrite lookup_insert_ne by done.
        intros [Hx Hm]%destroy_lookup_is_Some.
        destruct (Hl x Hx) as [i Hi]. exists i. apply owns_insert. right.
        split; [|done]. intros ->. destruct Hi as (m0 & Hm0 & Hx'). simpl in Hm0. congruence.
  - destruct (l !! a) as [m|] eqn:Ea; simpl; [|discriminate].
    intros _ [= <-]. intros x. simpl.
    intros [Hx Hm]%destroy_lookup_is_Some.
    destruct (Hl x Hx) as [i (n & Hn & Hx')]. simpl in Hn. exists i, n. simpl.
    split; [|done]. rewrite lookup_delete_ne; [done|]. congruence.
Qed.

(** Move assignment onto a manager that holds a structure is the only
    statement that loses a structure: in a program without one, every
    allocation is held by a manager in every state reached, and once all
    managers are destroyed nothing is allocated. *)
Theorem only_overwriting_move_assignment_leaks cs s :
  run cs initial = Some s →
  program.assigns_onto_empty log exp lgamma cs initial = true →
  (∀ a, is_Some (heap s !! a) → ∃ i, owns s i a)
  ∧ (live s = ∅ → heap s = ∅).
Proof.
  assert (Hgen : ∀ cs s0 s, no_leak s0 → run cs s0 = Some s →
            program.assigns_onto_empty log exp lgamma cs s0 = true → no_leak s).
  { clear. induction cs as [|c cs IH]; intros s0 s Hl; simpl.
    - by intros [= <-].
    - destruct (exec c s0) as [s1|] eqn:E; simpl; [|discriminate].
      intros Hrun [Hno Hrest]%andb_true_iff. apply negb_true_iff in Hno.
      apply (IH s1); [|done..]. by apply (exec_keeps_no_leak c s0). }
  intros Hrun Hok.
  assert (Hl : no_leak s).
  { apply (Hgen cs initial); [|done..]. by intros a [? ?]. }
  split; [done|].
  intros Hlive. apply map_empty. intros a.
  destruct (heap s !! a) eqn:Ea; [|done].
  destruct (Hl a) as (i & m & Hm & _); [eauto|]. by rewrite Hlive in Hm.
Qed.

End programs.

Section round_trip.
Variables log exp lgamma : float → float.

(** Moving a manager into a new one, assigning it back and destroying the
    new one leaves the manager, with its rate and its structure, and the
    device as they were. *)
Theorem move_away_and_back_restores s a b m :
  live s !! a = Some m →
  live s !! b = None →
  program.run log exp lgamma [MoveConstruct b a; MoveAssign a b; Destroy b] s
  = Some s.
Proof.
  destruct s as [l h], m as [d r]. simpl. intros Ha Hb.
  assert (Hab : a ≠ b) by congruence.
  assert (Hba : b ≠ a) by congruence.
  rewrite Hb, Ha. simpl.
  set (l1 := <[b := Manager d r]> (<[a := Manager empty_distribution r]> l)).
  assert (H1 : l1 !! a = Some (Manager empty_distribution r)).
  { unfold l1. by rewrite lookup_insert_ne, lookup_insert_eq. }
  assert (H2 : l1 !! b = Some (Manager d r)) by apply lookup_insert_eq.
  rewrite H1. simpl. destruct (decide (a = b)) as [|_]; [done|].
  rewrite H2. simpl.
  set (l2 := <[a := Manager d r]> (<[b := Manager empty_distribution r]> l1)).
  assert (H3 : l2 !! b = Some (Manager empty_distribution r)).
  { unfold l2. by rewrite lookup_insert_ne, lookup_insert_eq. }
  rewrite H3. simpl. f_equal. f_equal.
  apply map_eq. intros i.
  destruct (decide (i = b)) as [->|Hib]; [by rewrite lookup_delete_eq|].
  rewrite lookup_delete_ne by done. unfold l2, l1.
  destruct (decide (i = a)) as [->|Hia]; [by rewrite lookup_insert_eq|].
  by rewrite !lookup_insert_ne.
Qed.

End round_trip.

(** ** The theorems at concrete rates *)

Lemma window_entries_are_log_space_pmf_witness :
  supported_rate 10 = true
  ∧ is_Some (reference_window 10)
  ∧ reference_window 10 = Some window_of_10
  ∧ size window_of_10 = 40
  ∧ ∃ c fl lo,
      poisson_distribution.capacity_of 10 = Some c
      ∧ floor_to_int 10 = Some fl
      ∧ offset window_of_10 = poisson_distribution.left_of fl c + lo
      ∧ ∀ j, 0 ≤ j < size window_of_10 →
          probabilities window_of_10 !! Z.to_nat j
          = Some (log_space_pmf reference_libm.log reference_libm.exp
                    reference_libm.lgamma 10
                    (poisson_distribution.left_of fl c + (lo + j)))
          ∧ probabilities window_of_10 !! Z.to_nat j
            = Some (log_space_pmf reference_libm.log reference_libm.exp
                      reference_libm.lgamma 10 (offset window_of_10 + j)).
Proof.
  destruct (window_entries_are_log_space_pmf reference_libm.log reference_libm.exp
              reference_libm.lgamma 10) as [Hd Hp].
  split; [by vm_compute|]. split; [apply Hd; by vm_compute|].
  split; [by vm_compute|]. split; [reflexivity|].
  apply (Hp window_of_10). by vm_compute.
Defined.

Lemma window_cutoffs_and_compaction_witness :
  reference_window 10 = Some window_of_10
  ∧ ∃ c fl lo hi,
      poisson_distribution.capacity_of 10 = Some c
      ∧ floor_to_int 10 = Some fl
      ∧ let left := poisson_distribution.left_of fl c in
        cutoff_lo reference_libm.log reference_libm.exp reference_libm.lgamma 10
          left (c / 2) lo
        ∧ cutoff_hi reference_libm.log reference_libm.exp reference_libm.lgamma 10
            left (c / 2) c hi
        ∧ size window_of_10 = hi - lo + 1
        ∧ offset window_of_10 = left + lo
        ∧ ∀ j, 0 ≤ j ≤ hi - lo →
            probabilities window_of_10 !! Z.to_nat j
            = Some (log_space_pmf reference_libm.log reference_libm.exp
                      reference_libm.lgamma 10 (left + (lo + j))).
Proof.
  split; [by vm_compute|].
  apply (window_cutoffs_and_compaction reference_libm.log reference_libm.exp
           reference_libm.lgamma 10 window_of_10).
  by vm_compute.
Defined.

Lemma capacity_and_left_witness :
  (0 <? 0.5)%float = true ∧ floor_to_int 0.5 = Some 0
  ∧ ∃ c, poisson_distribution.capacity_of 0.5 = Some c
         ∧ capacity_formula 0.5 = Some c
         ∧ poisson_distribution.left_of 0 c = 0 - c / 2.
Proof.
  split; [reflexivity|]. split; [reflexivity|].
  apply (proj1 capacity_and_left 0.5%float 0); reflexivity.
Defined.

Lemma window_entries_pass_threshold_witness :
  reference_window 10 = Some window_of_10
  ∧ ∀ j, 0 ≤ j < size window_of_10 →
      ∃ e, probabilities window_of_10 !! Z.to_nat j = Some e
           ∧ (e <? poisson_distribution.p_epsilon)%float = false
           ∧ ((e =? e)%float = true →
              (poisson_distribution.p_epsilon <=? e)%float = true).
Proof.
  split; [by vm_compute|].
  apply (window_entries_pass_threshold reference_libm.log reference_libm.exp
           reference_libm.lgamma 10 window_of_10).
  by vm_compute.
Defined.

(** At the rate 0 the logarithm is minus infinity, its product with
    [x = 0] is a NaN and so is the probability: the threshold test is
    false for it and it is stored.  The window of the rate 0 has 33
    entries, all NaN, none of which is at least [1e-12]. *)
Lemma window_of_zero_holds_nan :
  reference_window 0 = Some window_of_0
  ∧ size window_of_0 = 33
  ∧ ∃ e, probabilities window_of_0 !! Z.to_nat 0 = Some e
         ∧ (poisson_distribution.p_epsilon <=? e)%float = false.
Proof.
  split; [by vm_compute|]. split; [reflexivity|].
  exists nan. split; reflexivity.
Qed.

(** At the rate -1 the square root is a NaN and so is the value converted
    to the capacity: no window comes back, whatever the <cmath> functions. *)
Lemma negative_rate_has_no_window :
  poisson_distribution.capacity_of (-1) = None
  ∧ poisson_distribution.capacity_of infinity = None
  ∧ poisson_distribution.capacity_of nan = None
  ∧ reference_window (-1) = None.
Proof. by vm_compute. Qed.

(** The second of the two caches is one a program can hold. *)
Lemma second_cache_reachable m1 m2 h :
  two_caches = Some (m1, m2, h) →
  poisson_distribution_manager.reachable
    reference_libm.log reference_libm.exp reference_libm.lgamma m2.
Proof.
  unfold two_caches.
  destruct (reference_set_lambda 10 _ _) as [[m1' h1]|]; simpl; [|discriminate].
  destruct (reference_set_lambda 0.5 _ _) as [[m2' h2]|] eqn:E2; simpl; [|discriminate].
  intros [= _ <- _].
  eapply poisson_distribution_manager.reach_set_lambda;
    [apply poisson_distribution_manager.reach_default | exact E2].
Qed.

Lemma moved_from_keeps_rate_witness :
  ∃ m1 m2 h,
    two_caches = Some (m1, m2, h)
    ∧ poisson_distribution_manager.reachable
        reference_libm.log reference_libm.exp reference_libm.lgamma m2
    ∧ let '(_, other') := poisson_distribution_manager.move_construct m2 in
      let '(_, other'') := poisson_distribution_manager.move_assign m1 m2 in
      lambda other' = lambda m2 ∧ lambda other'' = lambda m2
      ∧ reference_set_lambda (lambda m2) other' h = Some (other', h)
      ∧ reference_set_lambda (lambda m2) other'' h = Some (other'', h)
      ∧ dis_table (dis other') = None ∧ dis_table (dis other'') = None.
Proof.
  destruct two_caches as [[[m1 m2] h]|] eqn:E; [|by vm_compute in E].
  pose proof (second_cache_reachable m1 m2 h E) as Hr.
  exists m1, m2, h. split; [done|]. split; [done|].
  exact (moved_from_keeps_rate reference_libm.log reference_libm.exp
           reference_libm.lgamma m1 m2 h Hr).
Defined.

(** A cache set twice to the rate 10: the second call returns the cache
    and the device as the first left them. *)
Lemma set_lambda_same_rate_is_noop_witness :
  ∃ m h,
    reference_set_lambda 10 poisson_distribution_manager.default ∅ = Some (m, h)
    ∧ (lambda m =? 10)%float = true
    ∧ reference_set_lambda 10 m h = Some (m, h).
Proof.
  destruct (reference_set_lambda 10 poisson_distribution_manager.default ∅)
    as [[m h]|] eqn:E; [|by vm_compute in E].
  exists m, h. split; [done|].
  unfold reference_set_lambda in *.
  exact (proj2 (proj2 (set_lambda_same_rate_is_noop reference_libm.log
                         reference_libm.exp reference_libm.lgamma 10
                         poisson_distribution_manager.default ∅)) m h E).
Defined.

(** The rate 0 gets the window of 33 entries centred at -32; the rate
    minus infinity gets none. *)
Lemma rate_is_not_validated_witness :
  (∃ w, reference_window 0 = Some w
        ∧ poisson_distribution.capacity_of 0 = Some 64
        ∧ floor_to_int 0 = Some 0
        ∧ poisson_distribution.left_of 0 64 = -32
        ∧ 0 ≤ size w ≤ 64)
  ∧ poisson_distribution.capacity_of neg_infinity = None
  ∧ reference_window neg_infinity = None.
Proof.
  unfold reference_window. split.
  - apply (proj1 (rate_is_not_validated reference_libm.log reference_libm.exp
                    reference_libm.lgamma 0)). reflexivity.
  - apply (proj2 (rate_is_not_validated reference_libm.log reference_libm.exp
                    reference_libm.lgamma neg_infinity)). left. reflexivity.
Defined.

(** At the rate [2^32] the capacity is 2097216 and the floor of the rate
    is [2^32], which no [int] holds: the centre [2^32 - 1048608] the
    formula asks for is above [INT_MAX], and the conversion of the floor
    to [int] is undefined. *)
Lemma huge_rate_has_no_int_floor :
  (0 <? 4294967296)%float = true
  ∧ poisson_distribution.capacity_of 4294967296 = Some 2097216
  ∧ floor_Z 4294967296 = Some 4294967296
  ∧ INT_MAX < 4294967296 - 2097216 / 2
  ∧ floor_to_int 4294967296 = None
  ∧ reference_window 4294967296 = None.
Proof. by vm_compute. Qed.

Lemma capacity_is_bounded_witness :
  floor_to_int 1000.75 = Some 1000
  ∧ (1000.75 <? 0)%float = false
  ∧ ∃ c, poisson_distribution.capacity_of 1000.75 = Some c
         ∧ 64 ≤ c ≤ 2 ^ 26 ∧ c mod 2 = 0 ∧ 0 ≤ 1000.
Proof.
  split; [reflexivity|]. split; [reflexivity|].
  apply (capacity_is_bounded 1000.75%float 1000); reflexivity.
Defined.

Lemma window_size_within_capacity_witness :
  reference_window 0.5 = Some (default no_window (reference_window 0.5))
  ∧ ∃ c fl,
      poisson_distribution.capacity_of 0.5 = Some c
      ∧ floor_to_int 0.5 = Some fl
      ∧ 0 ≤ size (default no_window (reference_window 0.5)) ≤ c
      ∧ poisson_distribution.left_of fl c
        ≤ offset (default no_window (reference_window 0.5)) ≤ fl + 1
      ∧ length (probabilities (default no_window (reference_window 0.5)))
        = Z.to_nat c.
Proof.
  split; [by vm_compute|].
  apply (window_size_within_capacity reference_libm.log reference_libm.exp
           reference_libm.lgamma 0.5%float).
  by vm_compute.
Defined.

Lemma window_holds_floor_iff_not_below_witness :
  reference_window 10 = Some window_of_10
  ∧ ∃ fl, floor_to_int 10 = Some fl
      ∧ (below reference_libm.log reference_libm.exp reference_libm.lgamma 10 fl = false
         ↔ offset window_of_10 ≤ fl < offset window_of_10 + size window_of_10)
      ∧ (below reference_libm.log reference_libm.exp reference_libm.lgamma 10 fl = true
         ↔ offset window_of_10 = fl + 1)
      ∧ (size window_of_10 = 0
         ↔ below reference_libm.log reference_libm.exp reference_libm.lgamma 10 fl = true
           ∧ below reference_libm.log reference_libm.exp reference_libm.lgamma 10 (fl + 1)
             = true).
Proof.
  split; [by vm_compute|].
  apply (window_holds_floor_iff_not_below reference_libm.log reference_libm.exp
           reference_libm.lgamma 10 window_of_10).
  by vm_compute.
Defined.


Lemma window_outcomes_near_floor_witness :
  reference_window 10 = Some window_of_10
  ∧ ∃ c fl,
      poisson_distribution.capacity_of 10 = Some c
      ∧ floor_to_int 10 = Some fl
      ∧ ∀ j, 0 ≤ j < size window_of_10 →
          fl - c / 2 ≤ offset window_of_10 + j < fl + c / 2
          ∧ INT_MIN ≤ offset window_of_10 + j ≤ INT_MAX.
Proof.
  split; [by vm_compute|].
  apply (window_outcomes_near_floor reference_libm.log reference_libm.exp
           reference_libm.lgamma 10 window_of_10).
  by vm_compute.
Defined.

(** The largest rate with an [int] floor, [2^31 - 1]. *)
Lemma floor_at_int_max_has_no_window_witness :
  floor_to_int 2147483647 = Some INT_MAX
  ∧ reference_window 2147483647 = None.
Proof.
  split; [reflexivity|].
  apply (floor_at_int_max_has_no_window reference_libm.log reference_libm.exp
           reference_libm.lgamma 2147483647). reflexivity.
Defined.

(** The rate 0.5 on an array of zeros and on an array of ones. *)
Lemma window_independent_of_array_contents_witness :
  poisson_distribution.calculate_probabilities reference_libm.log reference_libm.exp
    reference_libm.lgamma (replicate 86 0%float) 86 0.5 = Some window_of_half
  ∧ ∃ w',
      poisson_distribution.calculate_probabilities reference_libm.log
        reference_libm.exp reference_libm.lgamma (replicate 86 1%float) 86 0.5
      = Some w'
      ∧ size w' = size window_of_half ∧ offset w' = offset window_of_half
      ∧ ∀ j, 0 ≤ j < size window_of_half →
          probabilities w' !! Z.to_nat j = probabilities window_of_half !! Z.to_nat j.
Proof.
  split; [by vm_compute|].
  apply (window_independent_of_array_contents reference_libm.log reference_libm.exp
           reference_libm.lgamma (replicate 86 0%float) (replicate 86 1%float) 86
           0.5%float window_of_half); [by vm_compute | reflexivity | reflexivity |].
  by vm_compute.
Defined.

(** A fresh manager given the rate -0.0, and the constructor at that rate. *)
Lemma fresh_manager_skips_zero_rate_witness :
  (-0 =? 0)%float = true
  ∧ reference_set_lambda (-0) poisson_distribution_manager.default ∅
    = Some (poisson_distribution_manager.default, ∅)
  ∧ ∃ d h' a,
      poisson_distribution.construct reference_libm.log reference_libm.exp
        reference_libm.lgamma (-0) ∅ = Some (d, h')
      ∧ dis_table d = Some a ∧ (a ∉ dom (∅ : gmap nat (list float)))
      ∧ is_Some (h' !! a).
Proof.
  split; [reflexivity|]. unfold reference_set_lambda.
  apply (proj1 (fresh_manager_skips_zero_rate reference_libm.log reference_libm.exp
                  reference_libm.lgamma (-0)%float ∅)).
  reflexivity.
Defined.

Lemma stored_rate_is_finite_and_not_negative_witness :
  ∃ m1 m2 h,
    two_caches = Some (m1, m2, h)
    ∧ poisson_distribution_manager.reachable
        reference_libm.log reference_libm.exp reference_libm.lgamma m2
    ∧ double_parts (lambda m2) ≠ None
    ∧ (lambda m2 <? 0)%float = false
    ∧ ∀ new_lambda h',
        double_parts new_lambda = None ∨ (new_lambda <? 0)%float = true →
        (lambda m2 =? new_lambda)%float = false
        ∧ reference_set_lambda new_lambda m2 h' = None.
Proof.
  destruct two_caches as [[[m1 m2] h]|] eqn:E; [|by vm_compute in E].
  pose proof (second_cache_reachable m1 m2 h E) as Hr.
  exists m1, m2, h. split; [done|]. split; [done|].
  unfold reference_set_lambda.
  exact (stored_rate_is_finite_and_not_negative reference_libm.log reference_libm.exp
           reference_libm.lgamma m2 Hr).
Defined.

Lemma structures_are_held_exclusively_witness :
  ∃ s,
    reference_run three_managers initial = Some s
    ∧ ∀ i a, owns s i a →
        is_Some (heap s !! a)
        ∧ ∀ j n, j ≠ i → live s !! j = Some n →
            dis_table (dis n) ≠ Some a
            ∧ poisson_distribution_manager.destroy n (heap s) !! a = heap s !! a.
Proof.
  destruct (reference_run three_managers initial) as [s|] eqn:E;
    [|by vm_compute in E].
  exists s. split; [done|]. unfold reference_run in E.
  exact (structures_are_held_exclusively reference_libm.log reference_libm.exp
           reference_libm.lgamma three_managers s E).
Defined.

Lemma cached_structure_is_that_of_stored_rate_witness :
  ∃ s,
    reference_run three_managers initial = Some s
    ∧ ∀ i m, live s !! i = Some m →
        match dis_table (dis m) with
        | Some a =>
            ∃ w, reference_window (lambda m) = Some w
                 ∧ dis_size (dis m) = size w
                 ∧ dis_offset (dis m) = offset w
                 ∧ heap s !! a = Some (take (Z.to_nat (size w)) (probabilities w))
        | None => dis m = empty_distribution
        end.
Proof.
  destruct (reference_run three_managers initial) as [s|] eqn:E;
    [|by vm_compute in E].
  exists s. split; [done|]. unfold reference_run in E. unfold reference_window.
  exact (cached_structure_is_that_of_stored_rate reference_libm.log reference_libm.exp
           reference_libm.lgamma three_managers s E).
Defined.

(** The three managers, the third destroyed as well: nothing stays
    allocated. *)
Lemma only_overwriting_move_assignment_leaks_witness :
  ∃ s,
    reference_run (three_managers ++ [Destroy 2]) initial = Some s
    ∧ program.assigns_onto_empty reference_libm.log reference_libm.exp
        reference_libm.lgamma (three_managers ++ [Destroy 2]) initial = true
    ∧ live s = ∅
    ∧ (∀ a, is_Some (heap s !! a) → ∃ i, owns s i a)
    ∧ (live s = ∅ → heap s = ∅).
Proof.
  destruct (reference_run (three_managers ++ [Destroy 2]) initial) as [s|] eqn:E;
    [|by vm_compute in E].
  exists s. split; [done|].
  assert (Hok : program.assigns_onto_empty reference_libm.log reference_libm.exp
                  reference_libm.lgamma (three_managers ++ [Destroy 2]) initial = true)
    by (by vm_compute).
  split; [done|]. split.
  { vm_compute in E. by injection E as <-. }
  unfold reference_run in E.
  exact (only_overwriting_move_assignment_leaks reference_libm.log reference_libm.exp
           reference_libm.lgamma (three_managers ++ [Destroy 2]) s E Hok).
Defined.

(** A manager set to the rate 10, moved into a second one and back. *)
Lemma move_away_and_back_restores_witness :
  ∃ s m,
    reference_run [Construct 0; SetLambda 0 10] initial = Some s
    ∧ live s !! 0%nat = Some m ∧ live s !! 1%nat = None
    ∧ dis_table (dis m) = Some 0%nat
    ∧ reference_run [MoveConstruct 1 0; MoveAssign 0 1; Destroy 1] s = Some s.
Proof.
  destruct (reference_run [Construct 0; SetLambda 0 10] initial) as [s|] eqn:E;
    [|by vm_compute in E].
  vm_compute in E. injection E as <-.
  eexists _, _. split; [reflexivity|]. split; [reflexivity|].
  split; [reflexivity|]. split; [reflexivity|].
  unfold reference_run.
  eapply (move_away_and_back_restores reference_libm.log reference_libm.exp
            reference_libm.lgamma); reflexivity.
Defined.
